(** * Wire codec of path segments (segment/encoding.go)

    A shallow embedding of the segment codec: [DecodeSegments],
    [DecodeInterfaces], [EncodeSegments], [EncodeSegment],
    [RecursiveSubsegments] and [EncodeInterfaces], followed by the
    properties of the wire format that hold (or fail) on that code.

    Conventions of the embedding:
    - a Go [[]byte] is a [list byte]; a slice expression [b[lo:]] and an
      index expression [b[i]] are partial ([None] stands for the run-time
      panic "index out of range");
    - a Go [int] holding a length or an index is a [nat] (such values are
      bounded by the length of a slice in memory, they never wrap);
      [uint16] and [uint64] values are [Z] with the wrap-around of a
      conversion written out;
    - a [nil] value of the interface type [Segment] is the constructor
      [SegNil];
    - [addr.IA] and [common.IFIDType] are carried in their packed 64-bit
      form ([IAInt], [uint64]), which is what the codec reads and writes. *)

From Stdlib Require Import ZArith List Lia Ascii String.
From coqutil Require Import Byte Word.LittleEndianList.
From stdpp Require Import base option list gmap strings.

Local Open Scope Z_scope.

#[local] Set Warnings "-clear-no-such-hyp,-register-all".

(** ** Data model *)

Record PathInterface : Type := mkPathInterface { ID : Z; IA : Z }.

Inductive Segment : Type :=
| SegNil
| Literal (Interfaces : list PathInterface)
| Composition (Segments : list Segment).

(** Modelled from the spec: the constructors [FromInterfaces] and
    [FromSegments] of the segment package are not part of encoding.go;
    the first builds a [Literal], the second a [Composition] (also of a
    single child, the "wrapper"). *)
Definition FromInterfaces (interfaces : list PathInterface) : Segment :=
  Literal interfaces.

Definition FromSegments (segments : list Segment) : Segment :=
  Composition segments.

(** The values of a [uint64]. *)
Definition uint64_range (v : Z) : Prop := 0 <= v < 2 ^ 64.

(** An interface whose two fields are 64-bit values. *)
Definition interface_ok (iface : PathInterface) : Prop :=
  uint64_range (ID iface) /\ uint64_range (IA iface).

(** A segment that fits the wire format: no [nil] anywhere in the
    tree, fewer than 256 entries at every node (the seglen byte), and
    64-bit interface fields. *)
Fixpoint wire_ok (s : Segment) : Prop :=
  match s with
  | SegNil => False
  | Literal interfaces =>
      Z.of_nat (length interfaces) < 256 /\ Forall interface_ok interfaces
  | Composition segs =>
      Z.of_nat (length segs) < 256 /\
      (fix all (l : list Segment) : Prop :=
         match l with
         | [] => True
         | c :: l' => wire_ok c /\ all l'
         end) segs
  end.

(** ** Constants *)

Definition SegTypeLiteral : Z := Z.shiftl 0 0.
Definition SegTypeComposition : Z := Z.shiftl 1 0.
Definition SegTypeMask : Z := Z.shiftl 1 0.

Definition SegAcceptedFalse : Z := Z.shiftl 0 1.
Definition SegAcceptedTrue : Z := Z.shiftl 1 1.
Definition SegAcceptedMask : Z := Z.shiftl 1 1.

(** ** Byte slices and encoding/binary *)

(** [b[lo:]] *)
Definition slice_from (b : list byte) (lo : nat) : option (list byte) :=
  if decide (lo <= length b)%nat then Some (drop lo b) else None.

(** Big-endian value of a byte string, and the [n] big-endian bytes of a
    value (most significant first; the value is taken modulo [2^(8n)]). *)
Definition be_combine (bs : list byte) : Z := le_combine (rev bs).
Definition be_split (n : nat) (v : Z) : list byte := rev (le_split n v).

(** [binary.BigEndian.Uint16(b)], [binary.BigEndian.Uint64(b)] *)
Definition Uint16 (b : list byte) : option Z :=
  if decide (2 <= length b)%nat then Some (be_combine (take 2 b)) else None.

Definition Uint64 (b : list byte) : option Z :=
  if decide (8 <= length b)%nat then Some (be_combine (take 8 b)) else None.

(** Overwrite [src] into [b] at offset [off]; the bytes must exist. *)
Definition overwrite (b : list byte) (off : nat) (src : list byte)
  : option (list byte) :=
  if decide (off + length src <= length b)%nat
  then Some (take off b ++ src ++ drop (off + length src) b)
  else None.

(** [binary.BigEndian.PutUint16(b[off:], v)] and
    [binary.BigEndian.PutUint64(b[off:], v)]: the slice shares the
    backing array, so the write lands in [b] itself. *)
Definition PutUint16 (b : list byte) (off : nat) (v : Z) : option (list byte) :=
  overwrite b off (be_split 2 v).

Definition PutUint64 (b : list byte) (off : nat) (v : Z) : option (list byte) :=
  overwrite b off (be_split 8 v).

(** [l[i] = x] *)
Definition store_at {A : Type} (l : list A) (i : nat) (x : A) : option (list A) :=
  if decide (i < length l)%nat then Some (<[i := x]> l) else None.

(** [make([]byte, n)] *)
Definition make_bytes (n : nat) : list byte := replicate n Byte.x00.

(** ** Outcome of a decoding step: a value, the error return, or a panic *)

Inductive outcome (A : Type) : Type :=
| Done (a : A)
| Failed (e : string)
| Panicked.
Arguments Done {A} a.
Arguments Failed {A} e.
Arguments Panicked {A}.

#[global] Instance outcome_ret : MRet outcome := fun A a => Done a.
#[global] Instance outcome_bind : MBind outcome := fun A B f m =>
  match m with
  | Done a => f a
  | Failed e => Failed e
  | Panicked => Panicked
  end.

(** A partial Go operation inside the decoder: [None] is the panic. *)
Definition lift {A : Type} (o : option A) : outcome A :=
  match o with Some a => Done a | None => Panicked end.

(** [errors.New("subsegment id is greater/equal to segment id")], the
    only error value of the package (the spec's InvalidReferenceError). *)
Definition errSubsegmentId : string :=
  "subsegment id is greater/equal to segment id".

(** ** Decoding *)

Definition decode_interface (bytes : list byte) (i : nat) : option PathInterface :=
  b_id ← slice_from bytes (i * 16);
  id ← Uint64 b_id;
  b_ia ← slice_from bytes (i * 16 + 8);
  ia ← Uint64 b_ia;
  Some {| ID := id; IA := ia |}.

(** The loop [for i := 0; i < seglen; i++] of [DecodeInterfaces], with
    [n] iterations left and [i] the current index. *)
Fixpoint DecodeInterfaces_from (bytes : list byte) (n i : nat)
  : option (list PathInterface) :=
  match n with
  | O => Some []
  | S n' =>
      iface ← decode_interface bytes i;
      rest ← DecodeInterfaces_from bytes n' (S i);
      Some (iface :: rest)
  end.

Definition DecodeInterfaces (bytes : list byte) (seglen : nat)
  : option (list PathInterface) :=
  DecodeInterfaces_from bytes seglen 0.

(** One iteration of the inner loop of a Composition record: read the
    2-byte index at [bytes[4+j*2:]] and resolve it. [newsegs] has its
    full length [numsegs] from the start ([make([]Segment, numsegs)]). *)
Definition decode_subseg (bytes : list byte) (oldsegs newsegs : list Segment)
    (j : nat) : outcome Segment :=
  b ← lift (slice_from bytes (4 + j * 2));
  id ← lift (Uint16 b);
  let id := Z.to_nat id in
  if decide (id < length oldsegs)%nat then lift (oldsegs !! id)
  else if decide (id < length oldsegs + length newsegs)%nat
       then lift (newsegs !! (id - length oldsegs)%nat)
       else Failed errSubsegmentId.

Fixpoint decode_subsegs (bytes : list byte) (oldsegs newsegs : list Segment)
    (n j : nat) : outcome (list Segment) :=
  match n with
  | O => Done []
  | S n' =>
      s ← decode_subseg bytes oldsegs newsegs j;
      rest ← decode_subsegs bytes oldsegs newsegs n' (S j);
      Done (s :: rest)
  end.

(** State of the record loop of [DecodeSegments]. *)
Record DecState : Type := mkDecState {
  d_bytes : list byte;
  d_newsegs : list Segment;
  d_accsegs : list Segment
}.

(** The body of [for i := 0; i < numsegs; i++]. *)
Definition decode_record (oldsegs : list Segment) (st : DecState) (i : nat)
  : outcome DecState :=
  let bytes := d_bytes st in
  flags ← lift (bytes !! 0%nat);
  let segtype := Z.land (byte.unsigned flags) SegTypeMask in
  let accepted := Z.eqb SegAcceptedTrue (Z.land (byte.unsigned flags) SegAcceptedMask) in
  b1 ← lift (bytes !! 1%nat);
  let seglen := Z.to_nat (byte.unsigned b1) in
  b2 ← lift (slice_from bytes 2);
  optlen ← lift (Uint16 b2);
  let optlen := Z.to_nat optlen in
  st1 ← (if Z.eqb segtype SegTypeLiteral then
           b4 ← lift (slice_from bytes 4);
           ifs ← lift (DecodeInterfaces b4 seglen);
           newsegs ← lift (store_at (d_newsegs st) i (FromInterfaces ifs));
           rest ← lift (slice_from bytes (4 + seglen * 16 + optlen));
           Done (mkDecState rest newsegs (d_accsegs st))
         else if Z.eqb segtype SegTypeComposition then
           subsegs ← decode_subsegs bytes oldsegs (d_newsegs st) seglen 0;
           newsegs ← lift (store_at (d_newsegs st) i (FromSegments subsegs));
           rest ← lift (slice_from bytes (4 + seglen * 2 + optlen));
           Done (mkDecState rest newsegs (d_accsegs st))
         else Done st);
  if accepted then
    seg ← lift (d_newsegs st1 !! i);
    Done (mkDecState (d_bytes st1) (d_newsegs st1) (d_accsegs st1 ++ [seg]))
  else Done st1.

Fixpoint decode_records (oldsegs : list Segment) (st : DecState) (n i : nat)
  : outcome DecState :=
  match n with
  | O => Done st
  | S n' =>
      st' ← decode_record oldsegs st i;
      decode_records oldsegs st' n' (S i)
  end.

(** What [DecodeSegments] hands back: the five results of the Go
    function. *)
Record Decoded : Type := mkDecoded {
  newsegs : list Segment;
  accsegs : list Segment;
  srcIA : Z;
  dstIA : Z;
  err : option string
}.

(** [DecodeSegments]; [None] is a run-time panic. *)
Definition DecodeSegments (bytes : list byte) (oldsegs : list Segment)
  : option Decoded :=
  b1 ← bytes !! 1%nat;
  let hdrlen := Z.to_nat (byte.unsigned b1) in
  numsegs ← slice_from bytes 2 ≫= Uint16;
  let numsegs := Z.to_nat numsegs in
  src ← slice_from bytes 4 ≫= Uint64;
  dst ← slice_from bytes 12 ≫= Uint64;
  let newsegs := replicate numsegs SegNil in
  rest ← slice_from bytes hdrlen;
  match decode_records oldsegs (mkDecState rest newsegs []) numsegs 0 with
  | Done st => Some (mkDecoded (d_newsegs st) (d_accsegs st) src dst None)
  | Failed e => Some (mkDecoded [] [] src dst (Some e))
  | Panicked => None
  end.

(** ** Encoding *)

(** [RecursiveSubsegments]: the proper subsegments in post-order. *)
Fixpoint RecursiveSubsegments (segment : Segment) : list Segment :=
  match segment with
  | Composition segs =>
      (fix children (l : list Segment) : list Segment :=
         match l with
         | [] => []
         | c :: l' => (RecursiveSubsegments c ++ [c]) ++ children l'
         end) segs
  | _ => []
  end.

(** The loop of [EncodeInterfaces(bytes[base:], interfaces)], from index
    [i] on: the slice shares the backing array of [bytes]. *)
Fixpoint EncodeInterfaces_from (bytes : list byte) (base : nat)
    (interfaces : list PathInterface) (i : nat) : option (list byte) :=
  match interfaces with
  | [] => Some bytes
  | iface :: rest =>
      bytes1 ← PutUint64 bytes (base + i * 16) (ID iface);
      bytes2 ← PutUint64 bytes1 (base + (i * 16 + 8)) (IA iface);
      EncodeInterfaces_from bytes2 base rest (S i)
  end.

Definition EncodeInterfaces (bytes : list byte) (base : nat)
    (interfaces : list PathInterface) : option (list byte) :=
  EncodeInterfaces_from bytes base interfaces 0.

Section Codec.

(** The content fingerprint of the segment model is not part of
    encoding.go; the codec only uses it as a map key, so it is a
    parameter here. *)
Variable Fingerprint : Segment -> string.

(** [seg.Fingerprint()]: a method call on a [nil] interface panics. *)
Definition call_Fingerprint (seg : Segment) : option string :=
  match seg with
  | SegNil => None
  | _ => Some (Fingerprint seg)
  end.

(** [segidx[key]] for a [map[string]int]: a missing key reads as 0. *)
Definition map_get (segidx : gmap string nat) (key : string) : nat :=
  default 0%nat (segidx !! key).

(** The loop [for i, subseg := range s.Segments] of [EncodeSegment]. *)
Fixpoint encode_indices (bytes : list byte) (segidx : gmap string nat)
    (segs : list Segment) (i : nat) : option (list byte) :=
  match segs with
  | [] => Some bytes
  | subseg :: rest =>
      fprint ← call_Fingerprint subseg;
      bytes1 ← PutUint16 bytes (4 + i * 2) (Z.of_nat (map_get segidx fprint) mod 2 ^ 16);
      encode_indices bytes1 segidx rest (S i)
  end.

(** [EncodeSegment]; [None] is a run-time panic. *)
Definition EncodeSegment (segment : Segment) (accepted : bool)
    (segidx : gmap string nat) : option (list byte) :=
  let optlen := 0%nat in
  let flags := if accepted then SegAcceptedTrue else SegAcceptedFalse in
  '(flags, seglen, bytes) ←
    match segment with
    | Literal interfaces =>
        let flags := Z.lor flags SegTypeLiteral in
        let seglen := length interfaces in
        let bytes := make_bytes (4 + seglen * 16 + optlen) in
        bytes ← EncodeInterfaces bytes 4 interfaces;
        Some (flags, seglen, bytes)
    | Composition segs =>
        let flags := Z.lor flags SegTypeComposition in
        let seglen := length segs in
        let bytes := make_bytes (4 + seglen * 2 + optlen) in
        bytes ← encode_indices bytes segidx segs 0;
        Some (flags, seglen, bytes)
    | SegNil => Some (flags, 0%nat, [])
    end;
  bytes ← store_at bytes 0 (byte.of_Z flags);
  bytes ← store_at bytes 1 (byte.of_Z (Z.of_nat seglen));
  PutUint16 bytes 2 (Z.of_nat optlen mod 2 ^ 16).

(** State of the loops of [EncodeSegments]. *)
Record EncState : Type := mkEncState {
  e_allbytes : list byte;
  e_segidx : gmap string nat;
  e_currentIdx : nat;
  e_sentsegs : list Segment
}.

(** [for idx, seg := range oldsegs { segidx[seg.Fingerprint()] = idx }] *)
Fixpoint index_oldsegs (segidx : gmap string nat) (oldsegs : list Segment)
    (idx : nat) : option (gmap string nat) :=
  match oldsegs with
  | [] => Some segidx
  | seg :: rest =>
      fprint ← call_Fingerprint seg;
      index_oldsegs (<[fprint := idx]> segidx) rest (S idx)
  end.

(** Body of [for _, subseg := range subsegs]. *)
Definition encode_subseg (st : EncState) (subseg : Segment) : option EncState :=
  fprint ← call_Fingerprint subseg;
  match e_segidx st !! fprint with
  | None =>
      let segidx' := <[fprint := e_currentIdx st]> (e_segidx st) in
      record ← EncodeSegment subseg false segidx';
      Some (mkEncState (e_allbytes st ++ record) segidx'
                       (S (e_currentIdx st)) (e_sentsegs st ++ [subseg]))
  | Some _ => Some st
  end.

Fixpoint encode_subsegs (st : EncState) (subsegs : list Segment)
  : option EncState :=
  match subsegs with
  | [] => Some st
  | subseg :: rest =>
      st' ← encode_subseg st subseg;
      encode_subsegs st' rest
  end.

(** Body of [for _, newseg := range newsegs]. *)
Definition encode_newseg (oldsegs : list Segment) (st : EncState)
    (newseg : Segment) : option EncState :=
  st1 ← encode_subsegs st (RecursiveSubsegments newseg);
  fprint ← call_Fingerprint newseg;
  match e_segidx st1 !! fprint with
  | None =>
      let segidx' := <[fprint := e_currentIdx st1]> (e_segidx st1) in
      record ← EncodeSegment newseg true segidx';
      Some (mkEncState (e_allbytes st1 ++ record) segidx'
                       (S (e_currentIdx st1)) (e_sentsegs st1 ++ [newseg]))
  | Some idx =>
      old ← oldsegs !! idx;
      record ← EncodeSegment (FromSegments [old]) true (e_segidx st1);
      Some (mkEncState (e_allbytes st1 ++ record) (e_segidx st1)
                       (S (e_currentIdx st1))
                       (e_sentsegs st1 ++ [FromSegments [old]]))
  end.

Fixpoint encode_newsegs (oldsegs : list Segment) (st : EncState)
    (newsegs : list Segment) : option EncState :=
  match newsegs with
  | [] => Some st
  | newseg :: rest =>
      st' ← encode_newseg oldsegs st newseg;
      encode_newsegs oldsegs st' rest
  end.

(** The 20 header bytes as written before the loops: [hdrlen] at byte
    1, the two addresses at bytes 4 and 12; [numsegs] is still 0. *)
Definition encode_header (src dst : Z) : option (list byte) :=
  let hdrlen := 20%nat in
  let allbytes := make_bytes hdrlen in
  allbytes ← store_at allbytes 1 (byte.of_Z (Z.of_nat hdrlen));
  allbytes ← PutUint64 allbytes 4 src;
  PutUint64 allbytes 12 dst.

(** [EncodeSegments]; [None] is a run-time panic. *)
Definition EncodeSegments (newsegs oldsegs : list Segment) (src dst : Z)
  : option (list byte * list Segment) :=
  allbytes ← encode_header src dst;
  segidx ← index_oldsegs ∅ oldsegs 0;
  let currentIdx := length oldsegs in
  st ← encode_newsegs oldsegs (mkEncState allbytes segidx currentIdx []) newsegs;
  let numsegs := Z.of_nat (e_currentIdx st) mod 2 ^ 16 in
  allbytes ← PutUint16 (e_allbytes st) 2 numsegs;
  Some (allbytes, e_sentsegs st).

End Codec.

(** ** A concrete fingerprint *)

Fixpoint segment_tree (s : Segment) : gen_tree (Z * Z) :=
  match s with
  | SegNil => GenNode 0 []
  | Literal ifs => GenNode 1 (map (fun i => GenLeaf (ID i, IA i)) ifs)
  | Composition segs => GenNode 2 (map segment_tree segs)
  end.

Fixpoint pos_digits (p : positive) : string :=
  match p with
  | xH => EmptyString
  | xO q => String "0"%char (pos_digits q)
  | xI q => String "1"%char (pos_digits q)
  end.

(** Modelled from the spec: [Fingerprint] of the segment package is not
    part of encoding.go. The spec asks for "a deterministic
    content-derived identity string computed from a Segment's variant
    and contents" that "must not collide for structurally distinct
    segments"; this one writes the binary digits of an injective
    numbering of the segment tree. It instantiates the parameter
    [Fingerprint] wherever a concrete run of the encoder is shown. *)
Definition FingerprintModel (s : Segment) : string :=
  pos_digits (encode (segment_tree s)).

(** ** Records of a buffer, read off the layout alone *)

(** Size in bytes of the record at the head of [bytes]:
    4 + seglen * (16 | 2) + optlen. *)
Definition record_size (bytes : list byte) : option nat :=
  flags ← bytes !! 0%nat;
  b1 ← bytes !! 1%nat;
  optlen ← slice_from bytes 2 ≫= Uint16;
  let width := if Z.testbit (byte.unsigned flags) 0 then 2%nat else 16%nat in
  Some (4 + Z.to_nat (byte.unsigned b1) * width + Z.to_nat optlen)%nat.

(** The flags bytes of [n] consecutive records at the head of [bytes]. *)
Fixpoint record_flags (bytes : list byte) (n : nat) : option (list byte) :=
  match n with
  | O => Some []
  | S n' =>
      flags ← bytes !! 0%nat;
      size ← record_size bytes;
      rest ← slice_from bytes size;
      fl ← record_flags rest n';
      Some (flags :: fl)
  end.

(** The flags bytes of the records that the header of [bytes] declares. *)
Definition declared_flags (bytes : list byte) : option (list byte) :=
  b1 ← bytes !! 1%nat;
  numsegs ← slice_from bytes 2 ≫= Uint16;
  rest ← slice_from bytes (Z.to_nat (byte.unsigned b1));
  record_flags rest (Z.to_nat numsegs).

(** Bit 1 of a flags byte. *)
Definition accepted_bit (flags : byte) : bool :=
  Z.testbit (byte.unsigned flags) 1.

(** The segments whose record has the accepted bit set, in record order. *)
Fixpoint accepted_of (segs : list Segment) (flags : list byte) : list Segment :=
  match segs, flags with
  | s :: segs', f :: flags' =>
      if accepted_bit f then s :: accepted_of segs' flags'
      else accepted_of segs' flags'
  | _, _ => []
  end.

(** ** Example buffers *)

(** A 20-byte header with [hdrlen = 20], the given [numsegs] bytes and
    both addresses 0. *)
Definition example_header (n_hi n_lo : byte) : list byte :=
  [Byte.x00; Byte.x14; n_hi; n_lo] ++ replicate 16 Byte.x00.

(** Two records: a Composition of one child whose index is 1, the slot of
    the record after it, then an empty Literal. *)
Definition forward_reference_buffer : list byte :=
  example_header Byte.x00 Byte.x02
  ++ [Byte.x01; Byte.x01; Byte.x00; Byte.x00; Byte.x00; Byte.x01]
  ++ [Byte.x00; Byte.x00; Byte.x00; Byte.x00].

(** Two records: a Literal of one interface (ID 1, IA 5), not accepted,
    then an accepted Composition of the segment at index 0. *)
Definition accepted_example_buffer : list byte :=
  example_header Byte.x00 Byte.x02
  ++ [Byte.x00; Byte.x01; Byte.x00; Byte.x00]
  ++ [Byte.x00; Byte.x00; Byte.x00; Byte.x00; Byte.x00; Byte.x00; Byte.x00; Byte.x01]
  ++ [Byte.x00; Byte.x00; Byte.x00; Byte.x00; Byte.x00; Byte.x00; Byte.x00; Byte.x05]
  ++ [Byte.x03; Byte.x01; Byte.x00; Byte.x00; Byte.x00; Byte.x00].

(** ** The wire layout, written down directly *)

(** The 16 bytes of an interface: ID then IA, big-endian. *)
Definition wire_interface (iface : PathInterface) : list byte :=
  be_split 8 (ID iface) ++ be_split 8 (IA iface).

(** A record: flags, seglen, optlen = 0, payload. *)
Definition wire_record (flags : Z) (seglen : nat) (payload : list byte) : list byte :=
  [byte.of_Z flags; byte.of_Z (Z.of_nat seglen)] ++ be_split 2 0 ++ payload.

(** The flags byte for a segment type and an accepted bit. *)
Definition wire_flags (accepted : bool) (segtype : Z) : Z :=
  Z.lor (if accepted then SegAcceptedTrue else SegAcceptedFalse) segtype.

(** The header: reserved byte, hdrlen = 20, numsegs, srcIA, dstIA. *)
Definition wire_header (numsegs src dst : Z) : list byte :=
  [Byte.x00; Byte.x14] ++ be_split 2 numsegs ++ be_split 8 src ++ be_split 8 dst.

(** The 2 bytes of a subsegment reference: the index that the table
    gives for the child's fingerprint (0 when it has none), as uint16. *)
Definition wire_index (Fingerprint : Segment -> string)
    (segidx : gmap string nat) (subseg : Segment) : list byte :=
  be_split 2 (Z.of_nat (map_get segidx (Fingerprint subseg)) mod 2 ^ 16).

(** The record of a segment under an index table. *)
Definition wire_segment (Fingerprint : Segment -> string) (accepted : bool)
    (segidx : gmap string nat) (segment : Segment) : list byte :=
  match segment with
  | SegNil => []
  | Literal interfaces =>
      wire_record (wire_flags accepted SegTypeLiteral) (length interfaces)
                  (flat_map wire_interface interfaces)
  | Composition segs =>
      wire_record (wire_flags accepted SegTypeComposition) (length segs)
                  (flat_map (wire_index Fingerprint segidx) segs)
  end.

(** Segments that [EncodeSegment] can serialise: not [nil], and no [nil]
    child whose fingerprint it would have to call. *)
Definition encodable (segment : Segment) : Prop :=
  match segment with
  | SegNil => False
  | Literal _ => True
  | Composition segs => Forall (fun s => s <> SegNil) segs
  end.

(** [record] is the record of [segment] under some index table and
    accepted bit. *)
Definition record_of (Fingerprint : Segment -> string) (record : list byte)
    (segment : Segment) : Prop :=
  encodable segment /\
  exists accepted segidx, record = wire_segment Fingerprint accepted segidx segment.

(** Between two states of the encoder loops: the records appended to the
    buffer, one per segment appended to [sentsegs], each consuming one
    index. *)
Definition emits (Fingerprint : Segment -> string) (st st' : EncState)
    (records : list (list byte)) (sent : list Segment) : Prop :=
  e_allbytes st' = e_allbytes st ++ concat records /\
  e_currentIdx st' = (e_currentIdx st + length records)%nat /\
  e_sentsegs st' = e_sentsegs st ++ sent /\
  Forall2 (record_of Fingerprint) records sent.

(** The count that [EncodeSegment] writes into the seglen byte. *)
Definition seglen_of (segment : Segment) : nat :=
  match segment with
  | SegNil => 0
  | Literal interfaces => length interfaces
  | Composition segs => length segs
  end.

(** ** The segments of the two-literal scenario *)

Definition scenario_L1 (X : Z) : Segment := Literal [mkPathInterface 1 X].
Definition scenario_L2 (Y : Z) : Segment := Literal [mkPathInterface 2 Y].
Definition scenario_C (X Y : Z) : Segment :=
  Composition [scenario_L1 X; scenario_L2 Y].

(** The record of a Literal of one interface, not accepted: flags 0,
    seglen 1, optlen 0, then ID and IA. *)
Definition literal1_record (id ia : Z) : list byte :=
  [Byte.x00; Byte.x01; Byte.x00; Byte.x00] ++ be_split 8 id ++ be_split 8 ia.

(** The record of a Literal of one interface, accepted: flags 2. *)
Definition literal1_record_accepted (id ia : Z) : list byte :=
  [Byte.x02; Byte.x01; Byte.x00; Byte.x00] ++ be_split 8 id ++ be_split 8 ia.

(** The three records of the scenario: the two Literals with flags 0
    (Literal, not accepted), then the Composition with flags 3
    (Composition, accepted) and the indices 0 and 1. *)
Definition scenario_records (X Y : Z) : list byte :=
  literal1_record 1 X
  ++ literal1_record 2 Y
  ++ [Byte.x03; Byte.x02; Byte.x00; Byte.x00;
      Byte.x00; Byte.x00; Byte.x00; Byte.x01].

(** A single-child Composition record, accepted, with index [k]. *)
Definition wrapper_record (k_hi k_lo : byte) : list byte :=
  [Byte.x03; Byte.x01; Byte.x00; Byte.x00; k_hi; k_lo].

(** ** Inputs whose counts do not fit their field *)

(** 65536 old segments, all the empty Literal. *)
Definition many_oldsegs : list Segment := replicate (Z.to_nat 65536) (Literal []).

(** A Literal of 256 interfaces. *)
Definition long_literal : Segment :=
  Literal (replicate 256 (mkPathInterface 0 0)).

(** ** The decoder's view of an encoder run *)

(** One emitted record: its bytes, its accepted bit, its segment. *)
Record emitted : Type := mkEmitted {
  em_record : list byte;
  em_accepted : bool;
  em_segment : Segment
}.

(** The segments of the accepted records, in order. *)
Definition accepted_segments (items : list emitted) : list Segment :=
  flat_map (fun e => if em_accepted e then [em_segment e] else []) items.

(** With no old segments and the segments [prefix] already decoded, the
    record loop of the decoder turns the record of [e] into its segment
    at the next slot. *)
Definition decodes_to (prefix : list Segment) (e : emitted) : Prop :=
  forall (rest : list byte) (tail accs : list Segment),
    Z.of_nat (length prefix) < 2 ^ 16 ->
    decode_record []
      (mkDecState (em_record e ++ rest) (prefix ++ SegNil :: tail) accs)
      (length prefix)
    = Done (mkDecState rest (prefix ++ em_segment e :: tail)
                       (accs ++ if em_accepted e then [em_segment e] else [])).

Fixpoint chain (prefix : list Segment) (items : list emitted) : Prop :=
  match items with
  | [] => True
  | e :: items' => decodes_to prefix e /\ chain (prefix ++ [em_segment e]) items'
  end.

(** The children of a Composition have their fingerprints in [K]. *)
Definition children_in (Fingerprint : Segment -> string) (K : gset string)
    (s : Segment) : Prop :=
  match s with
  | Composition segs => Forall (fun c => Fingerprint c ∈ K) segs
  | _ => True
  end.

(** A list in which every segment comes after its children, given the
    fingerprints [K] known beforehand. *)
Fixpoint post_ok (Fingerprint : Segment -> string) (K : gset string)
    (l : list Segment) : Prop :=
  match l with
  | [] => True
  | p :: l' =>
      children_in Fingerprint K p /\
      post_ok Fingerprint (K ∪ {[Fingerprint p]}) l'
  end.

(** The encoder state after emitting [items] behind [header], with no
    old segments: the index table maps fingerprints to positions in the
    sent list. *)
Definition enc_inv (Fingerprint : Segment -> string) (header : list byte)
    (st : EncState) (items : list emitted) : Prop :=
  e_allbytes st = header ++ concat (em_record <$> items) /\
  e_sentsegs st = em_segment <$> items /\
  e_currentIdx st = length items /\
  chain [] items /\
  forall fp k, e_segidx st !! fp = Some k ->
    exists s, (em_segment <$> items) !! k = Some s /\ Fingerprint s = fp.

(** Every entry of the table with an index below [len(oldsegs)] is the
    fingerprint of an old segment, and the current index is never below
    [len(oldsegs)]. *)
Definition old_entries (Fingerprint : Segment -> string) (olds : list Segment)
    (st : EncState) : Prop :=
  (length olds <= e_currentIdx st)%nat /\
  forall fp k, e_segidx st !! fp = Some k -> (k < length olds)%nat ->
    exists o, o ∈ olds /\ Fingerprint o = fp.

(** ** Measures of a segment *)

(** The children of a segment: the entries of a Composition. *)
Definition children (s : Segment) : list Segment :=
  match s with
  | Composition segs => segs
  | _ => []
  end.

(** The number of nodes of a segment tree. *)
Fixpoint seg_size (s : Segment) : nat :=
  match s with
  | Composition segs =>
      S ((fix sum (l : list Segment) : nat :=
            match l with
            | [] => O
            | c :: l' => (seg_size c + sum l')%nat
            end) segs)
  | _ => 1%nat
  end.

(** The size in bytes of the record of a segment: the four fixed bytes
    and 16 bytes per interface or 2 bytes per subsegment index. *)
Definition wire_size (s : Segment) : nat :=
  match s with
  | SegNil => 0%nat
  | Literal interfaces => (4 + length interfaces * 16)%nat
  | Composition segs => (4 + length segs * 2)%nat
  end.

(** Where a child of the new segment at slot [k] can come from: it is
    [nil], an old segment, or a new segment of an earlier slot. *)
Definition child_source (oldsegs news : list Segment) (k : nat) (c : Segment) : Prop :=
  c = SegNil \/ c ∈ oldsegs \/ exists j, (j < k)%nat /\ news !! j = Some c.

(** The sent segments have pairwise different fingerprints, all of them
    in the index table. *)
Definition sent_indexed (Fingerprint : Segment -> string) (st : EncState) : Prop :=
  NoDup (Fingerprint <$> e_sentsegs st) /\
  forall s, s ∈ e_sentsegs st -> is_Some (e_segidx st !! Fingerprint s).

(** One record: a Composition of one child whose index is 5. *)
Definition out_of_range_buffer : list byte :=
  example_header Byte.x00 Byte.x01
  ++ [Byte.x01; Byte.x01; Byte.x00; Byte.x00; Byte.x00; Byte.x05].

(** A header of [h] bytes: any reserved byte, [h] itself, numsegs, the
    two addresses, and [h - 20] bytes of padding. *)
Definition padded_header (b0 : byte) (h : nat) (numsegs src dst : Z)
    (padding : list byte) : list byte :=
  [b0; byte.of_Z (Z.of_nat h)] ++ be_split 2 numsegs ++ be_split 8 src
  ++ be_split 8 dst ++ padding.

(** A record with [optlen] bytes of options behind its payload. *)
Definition record_with_options (flags b1 : byte) (optlen : Z)
    (payload options : list byte) : list byte :=
  [flags; b1] ++ be_split 2 optlen ++ payload ++ options.

(** * Properties *)

(** ** Induction on segments *)

(** Nested induction over segments: the children of a [Composition]
    satisfy the property as well. *)
Lemma Segment_nested_ind (P : Segment -> Prop) :
  P SegNil ->
  (forall ifs, P (Literal ifs)) ->
  (forall segs, Forall P segs -> P (Composition segs)) ->
  forall s, P s.
Proof.
  intros HN HL HC.
  fix IH 1. intros [ | ifs | segs ].
  - exact HN.
  - apply HL.
  - apply HC. induction segs as [ | c segs IHsegs ].
    + constructor.
    + constructor; [ apply IH | exact IHsegs ].
Qed.

(** ** Reading from slices *)

Lemma slice_from_Some (b : list byte) (lo : nat) (r : list byte) :
  slice_from b lo = Some r <-> (lo <= length b)%nat /\ r = drop lo b.
Proof.
  unfold slice_from. case_decide; split.
  - intros [= <-]. done.
  - intros [_ ->]. done.
  - done.
  - intros [? _]. lia.
Qed.

Lemma slice_from_app (pre post : list byte) :
  slice_from (pre ++ post) (length pre) = Some post.
Proof.
  apply slice_from_Some. rewrite length_app, drop_app_length. split; [lia|done].
Qed.

Lemma Uint16_at_Some (b : list byte) (lo : nat) (v : Z) :
  slice_from b lo ≫= Uint16 = Some v -> (lo + 2 <= length b)%nat.
Proof.
  unfold slice_from, Uint16. case_decide; simpl; [|done].
  rewrite length_drop. case_decide; [lia|done].
Qed.

Lemma Uint64_at_Some (b : list byte) (lo : nat) (v : Z) :
  slice_from b lo ≫= Uint64 = Some v -> (lo + 8 <= length b)%nat.
Proof.
  unfold slice_from, Uint64. case_decide; simpl; [|done].
  rewrite length_drop. case_decide; [lia|done].
Qed.

(** ** Buffers that end too early *)

(** C5 (as amended): a buffer shorter than the 20-byte fixed header makes
    [DecodeSegments] panic; it returns no segment lists and no error
    value (the code has no malformed-header error and no bounds check). *)
Theorem DecodeSegments_short_buffer_panics (bytes : list byte) (oldsegs : list Segment) :
  (length bytes < 20)%nat -> DecodeSegments bytes oldsegs = None.
Proof.
  intros Hlen. unfold DecodeSegments.
  destruct (bytes !! 1%nat) as [b1|]; [simpl|done].
  destruct (slice_from bytes 2 ≫= Uint16) as [n|]; [simpl|done].
  destruct (slice_from bytes 4 ≫= Uint64) as [src|]; [simpl|done].
  destruct (slice_from bytes 12 ≫= Uint64) as [dst|] eqn:Hdst; [simpl|done].
  apply Uint64_at_Some in Hdst. lia.
Qed.

Lemma DecodeSegments_short_buffer_panics_witness :
  DecodeSegments [Byte.x00; Byte.x14; Byte.x00; Byte.x00] [] = None.
Proof. apply DecodeSegments_short_buffer_panics. simpl. lia. Defined.

(** The claim as stated fails: on the empty buffer the decoder panics
    instead of returning an error value. *)
Lemma DecodeSegments_no_malformed_header_error :
  ~ (exists r, DecodeSegments [] [] = Some r /\ is_Some (err r)).
Proof. intros (r & Hr & _). vm_compute in Hr. discriminate. Qed.

(** ** The flag bits of a record *)

Lemma accepted_test (flags : byte) :
  Z.eqb SegAcceptedTrue (Z.land (byte.unsigned flags) SegAcceptedMask)
  = accepted_bit flags.
Proof. destruct flags; reflexivity. Qed.

Lemma segtype_literal_test (flags : byte) :
  Z.eqb (Z.land (byte.unsigned flags) SegTypeMask) SegTypeLiteral
  = negb (Z.testbit (byte.unsigned flags) 0).
Proof. destruct flags; reflexivity. Qed.

Lemma segtype_composition_test (flags : byte) :
  Z.eqb (Z.land (byte.unsigned flags) SegTypeMask) SegTypeComposition
  = Z.testbit (byte.unsigned flags) 0.
Proof. destruct flags; reflexivity. Qed.

(** ** One record of the decoder *)

Lemma bind_Done {A B : Type} (m : outcome A) (f : A -> outcome B) (b : B) :
  m ≫= f = Done b -> exists a, m = Done a /\ f a = Done b.
Proof. destruct m; simpl; [eauto|done|done]. Qed.

Lemma lift_Done {A : Type} (o : option A) (a : A) :
  lift o = Done a <-> o = Some a.
Proof. destruct o; simpl; split; congruence. Qed.

Lemma store_at_Some {A : Type} (l : list A) (i : nat) (x : A) (l' : list A) :
  store_at l i x = Some l' <-> (i < length l)%nat /\ l' = <[i := x]> l.
Proof.
  unfold store_at. case_decide; split; try done.
  - intros [= <-]. done.
  - intros [_ ->]. done.
  - intros [? _]. lia.
Qed.

(** A record that decodes: its flags byte, its size, the segment stored
    at slot [i], and the effect on the accepted list. *)
Lemma decode_record_Done (oldsegs : list Segment) (st st' : DecState) (i : nat) :
  decode_record oldsegs st i = Done st' ->
  exists flags size seg,
    d_bytes st !! 0%nat = Some flags /\
    record_size (d_bytes st) = Some size /\
    slice_from (d_bytes st) size = Some (d_bytes st') /\
    (i < length (d_newsegs st))%nat /\
    d_newsegs st' = <[i := seg]> (d_newsegs st) /\
    d_accsegs st' = d_accsegs st ++ (if accepted_bit flags then [seg] else []).
Proof.
  unfold decode_record, record_size. intros H.
  apply bind_Done in H as (flags & Hflags%lift_Done & H).
  apply bind_Done in H as (b1 & Hb1%lift_Done & H).
  apply bind_Done in H as (b2 & Hb2%lift_Done & H).
  apply bind_Done in H as (optlen & Hopt%lift_Done & H).
  apply bind_Done in H as (st1 & Hst1 & H).
  rewrite accepted_test in H.
  rewrite segtype_literal_test, segtype_composition_test in Hst1.
  rewrite Hflags, Hb1, Hb2. simpl. rewrite Hopt. simpl.
  assert (exists seg, slice_from (d_bytes st)
            (4 + Z.to_nat (byte.unsigned b1)
               * (if Z.testbit (byte.unsigned flags) 0 then 2%nat else 16%nat)
             + Z.to_nat optlen)%nat = Some (d_bytes st1) /\
          (i < length (d_newsegs st))%nat /\
          d_newsegs st1 = <[i := seg]> (d_newsegs st) /\
          d_accsegs st1 = d_accsegs st) as (seg & Hrest & Hi & Hnew & Hacc).
  { destruct (Z.testbit (byte.unsigned flags) 0); simpl in Hst1.
    - apply bind_Done in Hst1 as (subsegs & _ & Hst1).
      apply bind_Done in Hst1 as (news & [Hi ->]%lift_Done%store_at_Some & Hst1).
      apply bind_Done in Hst1 as (rest & Hrest%lift_Done & [= <-]).
      exists (FromSegments subsegs). done.
    - apply bind_Done in Hst1 as (b4 & _ & Hst1).
      apply bind_Done in Hst1 as (ifs & _ & Hst1).
      apply bind_Done in Hst1 as (news & [Hi ->]%lift_Done%store_at_Some & Hst1).
      apply bind_Done in Hst1 as (rest & Hrest%lift_Done & [= <-]).
      exists (FromInterfaces ifs). done. }
  eexists flags, _, seg. split; [done|]. split; [reflexivity|].
  destruct (accepted_bit flags).
  - apply bind_Done in H as (seg' & Hseg%lift_Done & [= <-]). simpl.
    rewrite Hnew, list_lookup_insert_eq in Hseg by done.
    injection Hseg as <-. rewrite Hacc. done.
  - injection H as <-. rewrite app_nil_r. done.
Qed.

(** ** The record loop of the decoder *)

Lemma accepted_of_nil_r (segs : list Segment) : accepted_of segs [] = [].
Proof. destruct segs; reflexivity. Qed.

(** The loop leaves the slots below [i] alone, reads exactly the records
    that the layout describes, and appends to the accepted list the
    segments of the records whose accepted bit is set. *)
Lemma decode_records_Done (oldsegs : list Segment) (n : nat) :
  forall (st : DecState) (i : nat) (st' : DecState),
    decode_records oldsegs st n i = Done st' ->
    length (d_newsegs st') = length (d_newsegs st) /\
    take i (d_newsegs st') = take i (d_newsegs st) /\
    exists flags,
      record_flags (d_bytes st) n = Some flags /\
      length flags = n /\
      d_accsegs st' = d_accsegs st ++ accepted_of (drop i (d_newsegs st')) flags.
Proof.
  induction n as [|n IH]; intros st i st' H; simpl in H.
  - injection H as <-. split; [done|]. split; [done|].
    exists []. rewrite accepted_of_nil_r, app_nil_r. done.
  - apply bind_Done in H as (st1 & Hrec & Hloop).
    apply decode_record_Done in Hrec
      as (flags0 & size & seg & Hflags & Hsize & Hrest & Hi & Hnew & Hacc).
    apply IH in Hloop as (Hlen & Htake & flags & Hfl & Hlenfl & Hacc').
    assert (Hlen1 : length (d_newsegs st1) = length (d_newsegs st))
      by (rewrite Hnew; apply length_insert).
    split; [lia|].
    assert (Hseg : d_newsegs st' !! i = Some seg).
    { rewrite <- (lookup_take_lt _ (S i)) by lia.
      rewrite Htake, lookup_take_lt by lia.
      rewrite Hnew. apply list_lookup_insert_eq. done. }
    split.
    { assert (Hmin : forall l : list Segment, take i l = take i (take (S i) l))
        by (intros l; rewrite take_take, Nat.min_l by lia; done).
      rewrite (Hmin (d_newsegs st')), Htake, <- Hmin, Hnew.
      apply take_insert_ge. lia. }
    exists (flags0 :: flags). split; [|split].
    + simpl. rewrite Hflags, Hsize. simpl. rewrite Hrest. simpl.
      rewrite Hfl. done.
    + simpl. lia.
    + rewrite Hacc', Hacc, <- app_assoc. f_equal.
      rewrite (drop_S _ _ _ Hseg). simpl.
      destruct (accepted_bit flags0); done.
Qed.

(** C7: when [DecodeSegments] succeeds, the accepted list is exactly the
    subsequence, in record order, of the new segments whose record has
    bit 1 of its flags byte set. *)
Theorem DecodeSegments_accepted_filtering (bytes : list byte)
    (oldsegs : list Segment) (r : Decoded) :
  DecodeSegments bytes oldsegs = Some r ->
  err r = None ->
  exists flags,
    declared_flags bytes = Some flags /\
    length flags = length (newsegs r) /\
    accsegs r = accepted_of (newsegs r) flags.
Proof.
  unfold DecodeSegments, declared_flags. intros H Herr.
  destruct (bytes !! 1%nat) as [b1|]; [simpl in *|done].
  destruct (slice_from bytes 2 ≫= Uint16) as [n|]; [simpl in *|done].
  destruct (slice_from bytes 4 ≫= Uint64) as [src|]; [simpl in *|done].
  destruct (slice_from bytes 12 ≫= Uint64) as [dst|]; [simpl in *|done].
  destruct (slice_from bytes _) as [rest|]; [simpl in *|done].
  destruct (decode_records _ _ _ _) as [st| |] eqn:Hloop; [|by simplify_eq..].
  injection H as <-. simpl in *.
  apply decode_records_Done in Hloop as (Hlen & _ & flags & Hfl & Hlenfl & Hacc).
  simpl in *. exists flags. rewrite drop_0 in Hacc.
  rewrite Hlen, length_replicate. done.
Qed.

Lemma DecodeSegments_accepted_filtering_witness :
  exists flags,
    declared_flags accepted_example_buffer = Some flags /\
    length flags = 2%nat /\
    [Composition [Literal [mkPathInterface 1 5]]]
    = accepted_of [Literal [mkPathInterface 1 5];
                   Composition [Literal [mkPathInterface 1 5]]] flags.
Proof.
  apply (DecodeSegments_accepted_filtering accepted_example_buffer []
           (mkDecoded [Literal [mkPathInterface 1 5];
                       Composition [Literal [mkPathInterface 1 5]]]
                      [Composition [Literal [mkPathInterface 1 5]]] 0 0 None)).
  - vm_compute. reflexivity.
  - reflexivity.
Defined.

(** ** Buffers that declare more records than they hold *)

Lemma record_flags_length (n : nat) :
  forall (bytes flags : list byte),
    record_flags bytes n = Some flags -> (4 * n <= length bytes)%nat.
Proof.
  induction n as [|n IH]; intros bytes flags H; simpl in *; [lia|].
  destruct (bytes !! 0%nat) as [f|]; [simpl in H|done].
  destruct (record_size bytes) as [size|] eqn:Hsize; [simpl in H|done].
  destruct (slice_from bytes size) as [rest|] eqn:Hrest; [simpl in H|done].
  destruct (record_flags rest n) as [fl|] eqn:Hfl; [|done].
  apply IH in Hfl. apply slice_from_Some in Hrest as [Hle ->].
  rewrite length_drop in Hfl.
  unfold record_size in Hsize.
  destruct (bytes !! 0%nat); [simpl in Hsize|done].
  destruct (bytes !! 1%nat); [simpl in Hsize|done].
  destruct (slice_from bytes 2 ≫= Uint16); [simpl in Hsize|done].
  injection Hsize as <-. lia.
Qed.

(** X3: A successful decode needs the 20 header bytes and, behind the
    declared header length, at least 4 bytes for each declared record:
    on any shorter buffer the decoder panics or returns its one error. *)
Theorem DecodeSegments_success_bounds (bytes : list byte) (oldsegs : list Segment)
    (r : Decoded) :
  DecodeSegments bytes oldsegs = Some r ->
  err r = None ->
  exists b1 n,
    bytes !! 1%nat = Some b1 /\
    slice_from bytes 2 ≫= Uint16 = Some n /\
    (20 <= length bytes)%nat /\
    (Z.to_nat (byte.unsigned b1) + 4 * Z.to_nat n <= length bytes)%nat.
Proof.
  unfold DecodeSegments. intros H Herr.
  destruct (bytes !! 1%nat) as [b1|]; [simpl in H|done].
  destruct (slice_from bytes 2 ≫= Uint16) as [n|]; [simpl in H|done].
  destruct (slice_from bytes 4 ≫= Uint64) as [src|]; [simpl in H|done].
  destruct (slice_from bytes 12 ≫= Uint64) as [dst|] eqn:Hdst; [simpl in H|done].
  destruct (slice_from bytes (Z.to_nat (byte.unsigned b1))) as [rest|] eqn:Hrest;
    [simpl in H|done].
  destruct (decode_records _ _ _ _) as [st| |] eqn:Hloop; [|by simplify_eq..].
  apply decode_records_Done in Hloop as (_ & _ & flags & Hfl & _).
  simpl in Hfl. apply record_flags_length in Hfl.
  apply slice_from_Some in Hrest as [Hle ->]. rewrite length_drop in Hfl.
  apply Uint64_at_Some in Hdst.
  exists b1, n. repeat split; try done. lia.
Qed.

(** ** References to slots that are not decoded yet *)

(** C2 (the code departs from the claim): the first record is a
    Composition whose index 1 is the slot of the record after it. No
    record has been decoded before it and there are no old segments, so
    the index is not below the number of resolvable segments, yet
    [DecodeSegments] returns no error: the bound it checks is the length
    of the preallocated [newsegs], and the child it stores is [nil]. *)
Theorem DecodeSegments_accepts_forward_reference :
  DecodeSegments forward_reference_buffer []
  = Some (mkDecoded [Composition [SegNil]; Literal []] [] 0 0 None).
Proof. vm_compute. reflexivity. Qed.

(** An index at or beyond [len(oldsegs) + numsegs] is rejected. *)
Lemma decode_subseg_out_of_range (bytes b : list byte) (oldsegs newsegs : list Segment)
    (j : nat) (id : Z) :
  slice_from bytes (4 + j * 2) = Some b ->
  Uint16 b = Some id ->
  (length oldsegs + length newsegs <= Z.to_nat id)%nat ->
  decode_subseg bytes oldsegs newsegs j = Failed errSubsegmentId.
Proof.
  intros Hb Hid Hge. unfold decode_subseg. rewrite Hb. simpl.
  rewrite Hid. simpl. repeat case_decide; try lia. done.
Qed.

(** ** Big-endian values *)

Lemma length_be_split (n : nat) (v : Z) : length (be_split n v) = n.
Proof. unfold be_split. rewrite length_rev. apply length_le_split. Qed.

Lemma be_combine_split (n : nat) (v : Z) :
  be_combine (be_split n v) = v mod 2 ^ (Z.of_nat n * 8).
Proof.
  unfold be_combine, be_split. rewrite rev_involutive. apply le_combine_split.
Qed.

Lemma Uint16_be_split (v : Z) (rest : list byte) :
  Uint16 (be_split 2 v ++ rest) = Some (v mod 2 ^ 16).
Proof.
  unfold Uint16. rewrite length_app, length_be_split.
  case_decide; [|lia].
  rewrite take_app_length' by (symmetry; apply length_be_split).
  rewrite be_combine_split. done.
Qed.

Lemma Uint64_be_split (v : Z) (rest : list byte) :
  Uint64 (be_split 8 v ++ rest) = Some (v mod 2 ^ 64).
Proof.
  unfold Uint64. rewrite length_app, length_be_split.
  case_decide; [|lia].
  rewrite take_app_length' by (symmetry; apply length_be_split).
  rewrite be_combine_split. done.
Qed.

(** ** Writing into a buffer *)

Lemma overwrite_app (pre old post src : list byte) (off : nat) :
  length pre = off ->
  length old = length src ->
  overwrite (pre ++ old ++ post) off src = Some (pre ++ src ++ post).
Proof.
  intros Hpre Hold. unfold overwrite.
  rewrite !length_app. case_decide; [|lia].
  rewrite take_app_length' by done.
  replace (off + length src)%nat with (length (pre ++ old))
    by (rewrite length_app; lia).
  rewrite (app_assoc pre old post), drop_app_length. done.
Qed.

Lemma make_bytes_add (n m : nat) :
  make_bytes (n + m) = make_bytes n ++ make_bytes m.
Proof. apply replicate_add. Qed.

Lemma length_make_bytes (n : nat) : length (make_bytes n) = n.
Proof. apply length_replicate. Qed.

(** ** [EncodeInterfaces] fills its part of the buffer with the interfaces *)

Lemma EncodeInterfaces_from_spec (interfaces : list PathInterface) :
  forall (pre post : list byte) (base i : nat),
    length pre = (base + i * 16)%nat ->
    EncodeInterfaces_from
      (pre ++ make_bytes (length interfaces * 16) ++ post) base interfaces i
    = Some (pre ++ flat_map wire_interface interfaces ++ post).
Proof.
  induction interfaces as [|iface rest IH]; intros pre post base i Hpre.
  - done.
  - cbn [EncodeInterfaces_from length flat_map].
    replace (S (length rest) * 16)%nat with (8 + (8 + length rest * 16))%nat by lia.
    rewrite !make_bytes_add, <- !app_assoc.
    unfold PutUint64.
    rewrite overwrite_app
      by (rewrite ?length_be_split, ?length_make_bytes; done).
    cbn [mbind option_bind].
    rewrite (app_assoc pre (be_split 8 (ID iface))).
    rewrite overwrite_app
      by (rewrite ?length_app, ?length_be_split, ?length_make_bytes; lia).
    cbn [mbind option_bind].
    rewrite (app_assoc (pre ++ _)).
    rewrite IH by (rewrite !length_app, !length_be_split; lia).
    unfold wire_interface. rewrite <- !app_assoc. done.
Qed.

(** ** Payloads of fixed-width entries *)

Lemma flat_map_lookup_chunk {A : Type} (f : A -> list byte) (n : nat)
    (l : list A) (i : nat) (c : A) (k : nat) :
  (forall x, length (f x) = n) ->
  l !! i = Some c ->
  (k < n)%nat ->
  flat_map f l !! (i * n + k)%nat = f c !! k.
Proof.
  intros Hlen. revert i. induction l as [|x l IH]; intros i Hi Hk; [done|].
  simpl. destruct i as [|i]; simpl in *.
  - injection Hi as ->. apply lookup_app_l. rewrite Hlen. done.
  - rewrite lookup_app_r by (rewrite Hlen; lia).
    rewrite Hlen. replace (n + i * n + k - n)%nat with (i * n + k)%nat by lia.
    apply IH; done.
Qed.

Lemma length_wire_record (flags : Z) (seglen : nat) (payload : list byte) :
  length (wire_record flags seglen payload) = (4 + length payload)%nat.
Proof.
  unfold wire_record. rewrite !length_app, length_be_split. simpl. lia.
Qed.

Lemma wire_record_payload (flags : Z) (seglen : nat) (payload : list byte) (k : nat) :
  wire_record flags seglen payload !! (4 + k)%nat = payload !! k.
Proof.
  unfold wire_record. rewrite app_assoc, lookup_app_r.
  - rewrite length_app, length_be_split. simpl. f_equal. lia.
  - rewrite length_app, length_be_split. simpl. lia.
Qed.

(** ** Decoding what the layout describes *)

Lemma slice_from_app_at (pre post : list byte) (n : nat) :
  length pre = n -> slice_from (pre ++ post) n = Some post.
Proof. intros <-. apply slice_from_app. Qed.

Lemma decode_interface_wire (pre rest : list byte) (iface : PathInterface) (i : nat) :
  length pre = (i * 16)%nat ->
  interface_ok iface ->
  decode_interface (pre ++ wire_interface iface ++ rest) i = Some iface.
Proof.
  intros Hpre [Hid Hia]. unfold decode_interface, wire_interface.
  rewrite (slice_from_app_at pre _ (i * 16)) by done. cbn [mbind option_bind].
  rewrite <- app_assoc, Uint64_be_split. cbn [mbind option_bind].
  rewrite (app_assoc pre), (slice_from_app_at _ _ (i * 16 + 8))
    by (rewrite length_app, length_be_split; lia).
  cbn [mbind option_bind]. rewrite Uint64_be_split. cbn [mbind option_bind].
  unfold uint64_range in *. rewrite !Z.mod_small by lia.
  destruct iface; done.
Qed.

Lemma length_wire_interface (iface : PathInterface) :
  length (wire_interface iface) = 16%nat.
Proof. unfold wire_interface. rewrite length_app, !length_be_split. done. Qed.

Lemma DecodeInterfaces_from_wire (interfaces : list PathInterface) :
  forall (pre rest : list byte) (i : nat),
    length pre = (i * 16)%nat ->
    Forall interface_ok interfaces ->
    DecodeInterfaces_from (pre ++ flat_map wire_interface interfaces ++ rest)
                          (length interfaces) i
    = Some interfaces.
Proof.
  induction interfaces as [|iface l IH]; intros pre rest i Hpre Hok; [done|].
  apply Forall_cons in Hok as [Hiface Hl].
  cbn [DecodeInterfaces_from length flat_map].
  rewrite <- app_assoc, decode_interface_wire by done.
  cbn [mbind option_bind].
  rewrite (app_assoc pre), IH
    by (rewrite ?length_app, ?length_wire_interface; done || lia).
  done.
Qed.

Lemma length_flat_map_fixed {A : Type} (f : A -> list byte) (n : nat) (l : list A) :
  (forall x, length (f x) = n) -> length (flat_map f l) = (length l * n)%nat.
Proof.
  intros Hf. induction l as [|x l IH]; [done|].
  simpl. rewrite length_app, Hf, IH. done.
Qed.

(** The index [k] in the combined space of old and new segments. *)
Lemma decode_subseg_wire (pre rest : list byte) (oldsegs newsegs : list Segment)
    (j k : nat) (s : Segment) :
  length pre = (4 + j * 2)%nat ->
  Z.of_nat k < 2 ^ 16 ->
  (oldsegs ++ newsegs) !! k = Some s ->
  decode_subseg (pre ++ be_split 2 (Z.of_nat k mod 2 ^ 16) ++ rest) oldsegs newsegs j
  = Done s.
Proof.
  intros Hpre Hk Hs. unfold decode_subseg.
  rewrite slice_from_app_at by done. cbn [mbind outcome_bind lift].
  rewrite Uint16_be_split. cbn [mbind outcome_bind lift].
  rewrite Z.mod_mod, Z.mod_small, Nat2Z.id by (done || lia).
  pose proof (lookup_lt_Some _ _ _ Hs) as Hlt. rewrite length_app in Hlt.
  case_decide.
  - rewrite lookup_app_l in Hs by done. rewrite Hs. done.
  - case_decide; [|lia]. rewrite lookup_app_r in Hs by lia. rewrite Hs. done.
Qed.

Lemma decode_subsegs_wire {A : Type} (idx : A -> nat)
    (oldsegs newsegs : list Segment) (l : list A) :
  forall (segs : list Segment) (pre rest : list byte) (j : nat),
    length pre = (4 + j * 2)%nat ->
    Forall2 (fun a s => Z.of_nat (idx a) < 2 ^ 16 /\
                        (oldsegs ++ newsegs) !! idx a = Some s) l segs ->
    decode_subsegs
      (pre ++ flat_map (fun a => be_split 2 (Z.of_nat (idx a) mod 2 ^ 16)) l ++ rest)
      oldsegs newsegs (length l) j
    = Done segs.
Proof.
  induction l as [|a l IH]; intros segs pre rest j Hpre Hf.
  - apply Forall2_nil_inv_l in Hf as ->. done.
  - apply Forall2_cons_inv_l in Hf as (s & segs' & [Hk Hs] & Hf & ->).
    cbn [decode_subsegs length flat_map].
    rewrite <- app_assoc, (decode_subseg_wire _ _ _ _ _ _ s) by done.
    cbn [mbind outcome_bind].
    rewrite (app_assoc pre), (IH segs')
      by (rewrite ?length_app, ?length_be_split; done || lia).
    done.
Qed.

(** The fixed fields of a record at the head of a buffer. *)
Lemma wire_record_fields (flags : Z) (n : nat) (payload rest : list byte) :
  let bytes := wire_record flags n payload ++ rest in
  bytes !! 0%nat = Some (byte.of_Z flags) /\
  bytes !! 1%nat = Some (byte.of_Z (Z.of_nat n)) /\
  slice_from bytes 2 = Some (be_split 2 0 ++ payload ++ rest) /\
  slice_from bytes 4 = Some (payload ++ rest) /\
  slice_from bytes (4 + length payload) = Some rest.
Proof.
  unfold wire_record. cbn zeta. rewrite <- !app_assoc.
  split; [done|]. split; [done|]. split; [|split].
  - apply (slice_from_app_at [_; _]). done.
  - rewrite (app_assoc [_; _]). apply slice_from_app_at.
    rewrite length_app, length_be_split. done.
  - rewrite (app_assoc [_; _]), (app_assoc (_ ++ _)). apply slice_from_app_at.
    rewrite !length_app, length_be_split. simpl. lia.
Qed.

Lemma wire_record_split (flags : Z) (n : nat) (payload rest : list byte) :
  wire_record flags n payload ++ rest
  = ([byte.of_Z flags; byte.of_Z (Z.of_nat n)] ++ be_split 2 0) ++ payload ++ rest.
Proof. unfold wire_record. rewrite <- !app_assoc. done. Qed.

Lemma seglen_byte (n : nat) :
  Z.of_nat n < 256 -> Z.to_nat (byte.unsigned (byte.of_Z (Z.of_nat n))) = n.
Proof.
  intros Hn. rewrite byte.unsigned_of_Z. unfold byte.wrap.
  rewrite Z.mod_small by (change (2 ^ 8) with 256; lia). apply Nat2Z.id.
Qed.

Lemma decode_record_literal (oldsegs news accs : list Segment) (rest : list byte)
    (accepted : bool) (interfaces : list PathInterface) (i : nat) :
  Z.of_nat (length interfaces) < 256 ->
  Forall interface_ok interfaces ->
  (i < length news)%nat ->
  decode_record oldsegs
    (mkDecState (wire_record (wire_flags accepted SegTypeLiteral)
                             (length interfaces)
                             (flat_map wire_interface interfaces) ++ rest)
                news accs) i
  = Done (mkDecState rest (<[i := Literal interfaces]> news)
                     (accs ++ if accepted then [Literal interfaces] else [])).
Proof.
  intros Hlen Hok Hi.
  destruct (wire_record_fields (wire_flags accepted SegTypeLiteral)
              (length interfaces) (flat_map wire_interface interfaces) rest)
    as (H0 & H1 & H2 & H4 & Hend).
  rewrite (length_flat_map_fixed _ 16) in Hend by apply length_wire_interface.
  unfold decode_record. cbn [d_bytes d_newsegs d_accsegs].
  rewrite H0, H1, H2. cbn [mbind outcome_bind lift].
  rewrite Uint16_be_split. cbn [mbind outcome_bind lift].
  rewrite seglen_byte by done.
  change (Z.to_nat (0 mod 2 ^ 16)) with 0%nat.
  rewrite accepted_test, segtype_literal_test.
  replace (Z.testbit (byte.unsigned (byte.of_Z (wire_flags accepted SegTypeLiteral))) 0)
    with false by (destruct accepted; reflexivity).
  replace (accepted_bit (byte.of_Z (wire_flags accepted SegTypeLiteral)))
    with accepted by (destruct accepted; reflexivity).
  cbn [negb]. rewrite H4. cbn [mbind outcome_bind lift].
  unfold DecodeInterfaces.
  pose proof (DecodeInterfaces_from_wire interfaces [] rest 0 eq_refl Hok) as HD.
  rewrite app_nil_l in HD. rewrite HD.
  cbn [mbind outcome_bind lift].
  unfold store_at. case_decide; [|lia]. cbn [mbind outcome_bind lift].
  rewrite Nat.add_0_r, Hend. cbn [mbind outcome_bind lift d_newsegs d_bytes d_accsegs].
  destruct accepted; [|rewrite app_nil_r; done].
  rewrite list_lookup_insert_eq by done. done.
Qed.

Lemma decode_record_composition {A : Type} (idx : A -> nat)
    (oldsegs news accs : list Segment) (rest : list byte)
    (accepted : bool) (l : list A) (segs : list Segment) (i : nat) :
  Z.of_nat (length l) < 256 ->
  Forall2 (fun a s => Z.of_nat (idx a) < 2 ^ 16 /\
                      (oldsegs ++ news) !! idx a = Some s) l segs ->
  (i < length news)%nat ->
  decode_record oldsegs
    (mkDecState (wire_record (wire_flags accepted SegTypeComposition)
                   (length l)
                   (flat_map (fun a => be_split 2 (Z.of_nat (idx a) mod 2 ^ 16)) l)
                 ++ rest)
                news accs) i
  = Done (mkDecState rest (<[i := Composition segs]> news)
                     (accs ++ if accepted then [Composition segs] else [])).
Proof.
  intros Hlen Hres Hi.
  destruct (wire_record_fields (wire_flags accepted SegTypeComposition)
              (length l)
              (flat_map (fun a => be_split 2 (Z.of_nat (idx a) mod 2 ^ 16)) l) rest)
    as (H0 & H1 & H2 & H4 & Hend).
  rewrite (length_flat_map_fixed _ 2) in Hend
    by (intros; apply length_be_split).
  unfold decode_record. cbn [d_bytes d_newsegs d_accsegs].
  rewrite H0, H1, H2. cbn [mbind outcome_bind lift].
  rewrite Uint16_be_split. cbn [mbind outcome_bind lift].
  rewrite seglen_byte by done.
  change (Z.to_nat (0 mod 2 ^ 16)) with 0%nat.
  rewrite accepted_test, segtype_literal_test, segtype_composition_test.
  replace (Z.testbit (byte.unsigned (byte.of_Z (wire_flags accepted SegTypeComposition))) 0)
    with true by (destruct accepted; reflexivity).
  replace (accepted_bit (byte.of_Z (wire_flags accepted SegTypeComposition)))
    with accepted by (destruct accepted; reflexivity).
  cbn [negb].
  rewrite Nat.add_0_r, Hend.
  rewrite wire_record_split.
  rewrite (decode_subsegs_wire idx oldsegs news l segs)
    by (rewrite ?length_app, ?length_be_split; done).
  cbn [mbind outcome_bind lift].
  unfold store_at. case_decide; [|lia].
  cbn [mbind outcome_bind lift d_newsegs d_bytes d_accsegs].
  destruct accepted; [|rewrite app_nil_r; done].
  rewrite list_lookup_insert_eq by done. done.
Qed.

(** The decoder on a buffer that starts with a well-formed header: the
    header fields are read back and the record loop runs on the rest. *)
Lemma DecodeSegments_wire_header (n src dst : Z) (payload : list byte)
    (oldsegs : list Segment) :
  0 <= n < 2 ^ 16 ->
  uint64_range src ->
  uint64_range dst ->
  DecodeSegments (wire_header n src dst ++ payload) oldsegs
  = match decode_records oldsegs
            (mkDecState payload (replicate (Z.to_nat n) SegNil) [])
            (Z.to_nat n) 0 with
    | Done st => Some (mkDecoded (d_newsegs st) (d_accsegs st) src dst None)
    | Failed e => Some (mkDecoded [] [] src dst (Some e))
    | Panicked => None
    end.
Proof.
  intros Hn Hsrc Hdst. unfold DecodeSegments, wire_header.
  rewrite <- !app_assoc.
  change (([Byte.x00; Byte.x14] ++ _) !! 1%nat) with (Some Byte.x14).
  cbn [mbind option_bind].
  change (Z.to_nat (byte.unsigned Byte.x14)) with 20%nat.
  rewrite (slice_from_app_at [_; _] _ 2) by done. cbn [mbind option_bind].
  rewrite Uint16_be_split. cbn [mbind option_bind].
  rewrite (app_assoc [_; _] (be_split 2 n)).
  rewrite (slice_from_app_at _ _ 4) by (rewrite length_app, length_be_split; done).
  cbn [mbind option_bind]. rewrite Uint64_be_split. cbn [mbind option_bind].
  rewrite (app_assoc (_ ++ _) (be_split 8 src)).
  rewrite (slice_from_app_at _ _ 12)
    by (rewrite !length_app, !length_be_split; done).
  cbn [mbind option_bind]. rewrite Uint64_be_split. cbn [mbind option_bind].
  rewrite (app_assoc (_ ++ _) (be_split 8 dst)).
  rewrite (slice_from_app_at _ _ 20)
    by (rewrite !length_app, !length_be_split; done).
  cbn [mbind option_bind].
  unfold uint64_range in *. rewrite !Z.mod_small by lia. done.
Qed.

Section CodecProperties.

Variable Fingerprint : Segment -> string.

(** ** [EncodeSegment] produces the record of the layout *)

Lemma call_Fingerprint_Some (seg : Segment) :
  seg <> SegNil -> call_Fingerprint Fingerprint seg = Some (Fingerprint seg).
Proof. destruct seg; done. Qed.

Lemma encode_indices_spec (segidx : gmap string nat) (segs : list Segment) :
  forall (pre post : list byte) (i : nat),
    Forall (fun s => s <> SegNil) segs ->
    length pre = (4 + i * 2)%nat ->
    encode_indices Fingerprint (pre ++ make_bytes (length segs * 2) ++ post)
                   segidx segs i
    = Some (pre ++ flat_map (wire_index Fingerprint segidx) segs ++ post).
Proof.
  induction segs as [|c rest IH]; intros pre post i Hnn Hpre.
  - done.
  - apply Forall_cons in Hnn as [Hc Hrest].
    cbn [encode_indices length flat_map].
    rewrite call_Fingerprint_Some by done. cbn [mbind option_bind].
    replace (S (length rest) * 2)%nat with (2 + length rest * 2)%nat by lia.
    rewrite make_bytes_add, <- !app_assoc.
    unfold PutUint16.
    rewrite overwrite_app
      by (rewrite ?length_be_split, ?length_make_bytes; done).
    cbn [mbind option_bind].
    rewrite (app_assoc pre).
    rewrite IH by (rewrite ?length_app, ?length_be_split; done || lia).
    unfold wire_index. rewrite <- !app_assoc. done.
Qed.

Lemma record_finish (flags : Z) (seglen : nat) (payload : list byte) :
  (bytes ← store_at (make_bytes 4 ++ payload) 0 (byte.of_Z flags);
   bytes ← store_at bytes 1 (byte.of_Z (Z.of_nat seglen));
   PutUint16 bytes 2 (Z.of_nat 0 mod 2 ^ 16))
  = Some (wire_record flags seglen payload).
Proof.
  unfold store_at. simpl.
  unfold PutUint16.
  apply (overwrite_app [_; _] [_; _] payload); [done|].
  rewrite length_be_split. done.
Qed.

Theorem EncodeSegment_spec (segment : Segment) (accepted : bool)
    (segidx : gmap string nat) :
  encodable segment ->
  EncodeSegment Fingerprint segment accepted segidx
  = Some (wire_segment Fingerprint accepted segidx segment).
Proof.
  intros Henc. unfold EncodeSegment.
  destruct segment as [|ifs|segs]; [done| |].
  - unfold EncodeInterfaces.
    replace (make_bytes (4 + length ifs * 16 + 0))
      with (make_bytes 4 ++ make_bytes (length ifs * 16) ++ [])
      by (rewrite app_nil_r, <- make_bytes_add; f_equal; lia).
    rewrite EncodeInterfaces_from_spec by done.
    rewrite app_nil_r. cbn [mbind option_bind].
    apply record_finish.
  - replace (make_bytes (4 + length segs * 2 + 0))
      with (make_bytes 4 ++ make_bytes (length segs * 2) ++ [])
      by (rewrite app_nil_r, <- make_bytes_add; f_equal; lia).
    rewrite encode_indices_spec by done.
    rewrite app_nil_r. cbn [mbind option_bind].
    apply record_finish.
Qed.

(** ** Children without an index *)

Lemma wire_index_absent (segidx : gmap string nat) (subseg : Segment) :
  segidx !! Fingerprint subseg = None ->
  wire_index Fingerprint segidx subseg = [Byte.x00; Byte.x00].
Proof. intros H. unfold wire_index, map_get. rewrite H. reflexivity. Qed.

(** C9: for a Composition and any index table, [EncodeSegment] returns
    a record (no error, no panic) in which every child whose
    fingerprint has no entry in the table is written as the 2-byte
    index 0, the value a Go map gives for a missing key. *)
Theorem EncodeSegment_unknown_child_index_zero (segs : list Segment)
    (accepted : bool) (segidx : gmap string nat) :
  Forall (fun s => s <> SegNil) segs ->
  exists bytes,
    EncodeSegment Fingerprint (Composition segs) accepted segidx = Some bytes /\
    forall (i : nat) (child : Segment),
      segs !! i = Some child ->
      segidx !! Fingerprint child = None ->
      bytes !! (4 + i * 2)%nat = Some Byte.x00 /\
      bytes !! (4 + i * 2 + 1)%nat = Some Byte.x00.
Proof.
  intros Hnn. eexists. split; [apply EncodeSegment_spec; done|].
  intros i child Hi Habs. unfold wire_segment.
  assert (Hw : forall x, length (wire_index Fingerprint segidx x) = 2%nat)
    by (intros x; apply length_be_split).
  split.
  - replace (4 + i * 2)%nat with (4 + (i * 2 + 0))%nat by lia.
    rewrite wire_record_payload.
    rewrite (flat_map_lookup_chunk _ 2 _ _ child) by (done || lia).
    rewrite wire_index_absent by done. done.
  - replace (4 + i * 2 + 1)%nat with (4 + (i * 2 + 1))%nat by lia.
    rewrite wire_record_payload.
    rewrite (flat_map_lookup_chunk _ 2 _ _ child) by (done || lia).
    rewrite wire_index_absent by done. done.
Qed.

(** ** What the encoder loops append *)

Lemma encode_indices_Some_not_nil (segidx : gmap string nat) (segs : list Segment) :
  forall (bytes bytes' : list byte) (i : nat),
    encode_indices Fingerprint bytes segidx segs i = Some bytes' ->
    Forall (fun s => s <> SegNil) segs.
Proof.
  induction segs as [|c rest IH]; intros bytes bytes' i H; [constructor|].
  simpl in H.
  destruct c as [|ifs|cs]; [done| |]; simpl in H;
    (destruct (PutUint16 _ _ _) as [bytes1|]; [simpl in H|done]);
    (constructor; [done|eapply IH; exact H]).
Qed.

Lemma EncodeSegment_Some_encodable (segment : Segment) (accepted : bool)
    (segidx : gmap string nat) (bytes : list byte) :
  EncodeSegment Fingerprint segment accepted segidx = Some bytes ->
  encodable segment.
Proof.
  unfold EncodeSegment. destruct segment as [|ifs|segs]; simpl.
  - done.
  - done.
  - destruct (encode_indices _ _ _ _ _) as [b|] eqn:Hb; [|done].
    intros _. eapply encode_indices_Some_not_nil. exact Hb.
Qed.

Lemma EncodeSegment_Some (segment : Segment) (accepted : bool)
    (segidx : gmap string nat) (bytes : list byte) :
  EncodeSegment Fingerprint segment accepted segidx = Some bytes ->
  encodable segment /\ bytes = wire_segment Fingerprint accepted segidx segment.
Proof.
  intros H. pose proof (EncodeSegment_Some_encodable _ _ _ _ H) as Henc.
  rewrite EncodeSegment_spec in H by done. split; congruence.
Qed.

Lemma emits_refl (st : EncState) : emits Fingerprint st st [] [].
Proof.
  unfold emits. simpl. rewrite !app_nil_r, Nat.add_0_r.
  repeat split; constructor.
Qed.

Lemma emits_trans (st1 st2 st3 : EncState) (r1 r2 : list (list byte))
    (s1 s2 : list Segment) :
  emits Fingerprint st1 st2 r1 s1 ->
  emits Fingerprint st2 st3 r2 s2 ->
  emits Fingerprint st1 st3 (r1 ++ r2) (s1 ++ s2).
Proof.
  intros (Hb1 & Hi1 & Hs1 & Hf1) (Hb2 & Hi2 & Hs2 & Hf2).
  unfold emits. rewrite Hb2, Hb1, Hi2, Hi1, Hs2, Hs1.
  rewrite concat_app, length_app, <- !app_assoc.
  repeat split; [lia|]. apply Forall2_app; done.
Qed.

Lemma emits_one (st : EncState) (segment : Segment) (accepted : bool)
    (segidx' : gmap string nat) (record : list byte) :
  EncodeSegment Fingerprint segment accepted segidx' = Some record ->
  emits Fingerprint st
    (mkEncState (e_allbytes st ++ record) segidx' (S (e_currentIdx st))
                (e_sentsegs st ++ [segment]))
    [record] [segment].
Proof.
  intros [Henc ->]%EncodeSegment_Some. unfold emits. simpl.
  rewrite app_nil_r. repeat split; [lia|].
  constructor; [|constructor]. split; [done|]. eauto.
Qed.

Lemma encode_subseg_emits (st st' : EncState) (subseg : Segment) :
  encode_subseg Fingerprint st subseg = Some st' ->
  exists records sent, emits Fingerprint st st' records sent.
Proof.
  unfold encode_subseg. intros H.
  destruct (call_Fingerprint _ _) as [fprint|]; [simpl in H|done].
  destruct (e_segidx st !! fprint).
  - injection H as <-. exists [], []. apply emits_refl.
  - destruct (EncodeSegment _ _ _ _) as [record|] eqn:Hrec; [simpl in H|done].
    injection H as <-. eexists [record], [subseg]. eapply emits_one. exact Hrec.
Qed.

Lemma encode_subsegs_emits (subsegs : list Segment) :
  forall st st' : EncState,
    encode_subsegs Fingerprint st subsegs = Some st' ->
    exists records sent, emits Fingerprint st st' records sent.
Proof.
  induction subsegs as [|s rest IH]; intros st st' H; simpl in H.
  - injection H as <-. exists [], []. apply emits_refl.
  - destruct (encode_subseg _ _ _) as [st1|] eqn:H1; [simpl in H|done].
    apply encode_subseg_emits in H1 as (r1 & s1 & E1).
    apply IH in H as (r2 & s2 & E2).
    exists (r1 ++ r2), (s1 ++ s2). eapply emits_trans; done.
Qed.

Lemma encode_newseg_emits (oldsegs : list Segment) (st st' : EncState)
    (newseg : Segment) :
  encode_newseg Fingerprint oldsegs st newseg = Some st' ->
  exists records sent, emits Fingerprint st st' records sent.
Proof.
  unfold encode_newseg. intros H.
  destruct (encode_subsegs _ _ _) as [st1|] eqn:H1; [simpl in H|done].
  apply encode_subsegs_emits in H1 as (r1 & s1 & E1).
  destruct (call_Fingerprint _ _) as [fprint|]; [simpl in H|done].
  destruct (e_segidx st1 !! fprint) as [idx|].
  - destruct (oldsegs !! idx) as [old|]; [simpl in H|done].
    destruct (EncodeSegment _ _ _ _) as [record|] eqn:Hrec; [simpl in H|done].
    injection H as <-.
    exists (r1 ++ [record]), (s1 ++ [FromSegments [old]]).
    eapply emits_trans; [exact E1|].
    destruct st1 as [b m c s]. eapply (emits_one (mkEncState b m c s)). exact Hrec.
  - destruct (EncodeSegment _ _ _ _) as [record|] eqn:Hrec; [simpl in H|done].
    injection H as <-.
    exists (r1 ++ [record]), (s1 ++ [newseg]).
    eapply emits_trans; [exact E1|]. eapply emits_one. exact Hrec.
Qed.

Lemma encode_newsegs_emits (oldsegs newsegs : list Segment) :
  forall st st' : EncState,
    encode_newsegs Fingerprint oldsegs st newsegs = Some st' ->
    exists records sent, emits Fingerprint st st' records sent.
Proof.
  induction newsegs as [|s rest IH]; intros st st' H; simpl in H.
  - injection H as <-. exists [], []. apply emits_refl.
  - destruct (encode_newseg _ _ _ _) as [st1|] eqn:H1; [simpl in H|done].
    apply encode_newseg_emits in H1 as (r1 & s1 & E1).
    apply IH in H as (r2 & s2 & E2).
    exists (r1 ++ r2), (s1 ++ s2). eapply emits_trans; done.
Qed.

(** ** The header *)

Lemma encode_header_spec (src dst : Z) :
  encode_header src dst = Some (wire_header 0 src dst).
Proof.
  unfold encode_header.
  change (store_at (make_bytes 20) 1 (byte.of_Z (Z.of_nat 20)))
    with (Some ([Byte.x00; Byte.x14; Byte.x00; Byte.x00]
                ++ make_bytes 8 ++ make_bytes 8 ++ [])).
  cbn [mbind option_bind]. unfold PutUint64.
  rewrite overwrite_app by (rewrite ?length_be_split; done).
  cbn [mbind option_bind].
  rewrite (app_assoc [_; _; _; _]).
  rewrite overwrite_app
    by (rewrite ?length_app, ?length_be_split; done).
  rewrite app_nil_r, <- app_assoc. reflexivity.
Qed.

Lemma length_wire_header (numsegs src dst : Z) :
  length (wire_header numsegs src dst) = 20%nat.
Proof. unfold wire_header. rewrite !length_app, !length_be_split. done. Qed.

Lemma put_numsegs (v src dst numsegs : Z) (payload : list byte) :
  PutUint16 (wire_header v src dst ++ payload) 2 numsegs
  = Some (wire_header numsegs src dst ++ payload).
Proof.
  unfold PutUint16, wire_header. rewrite <- !app_assoc.
  rewrite overwrite_app by (rewrite ?length_be_split; done). done.
Qed.

(** [EncodeSegments] in terms of its loop: the buffer is the header,
    with [numsegs] the final index as uint16, followed by the records
    that the loop appended. *)
Lemma EncodeSegments_Some (newsegs oldsegs : list Segment) (src dst : Z)
    (bytes : list byte) (sent : list Segment) :
  EncodeSegments Fingerprint newsegs oldsegs src dst = Some (bytes, sent) ->
  exists segidx0 st records,
    index_oldsegs Fingerprint ∅ oldsegs 0 = Some segidx0 /\
    encode_newsegs Fingerprint oldsegs
      (mkEncState (wire_header 0 src dst) segidx0 (length oldsegs) []) newsegs
    = Some st /\
    e_sentsegs st = sent /\
    e_currentIdx st = (length oldsegs + length records)%nat /\
    Forall2 (record_of Fingerprint) records sent /\
    bytes = wire_header (Z.of_nat (e_currentIdx st) mod 2 ^ 16) src dst
            ++ concat records.
Proof.
  unfold EncodeSegments. rewrite encode_header_spec. cbn [mbind option_bind].
  destruct (index_oldsegs _ _ _ _) as [segidx0|]; [cbn [mbind option_bind]|done].
  destruct (encode_newsegs _ _ _ _) as [st|] eqn:Hloop; [cbn [mbind option_bind]|done].
  pose proof Hloop as (records & sent' & Hb & Hi & Hs & Hf)%encode_newsegs_emits.
  cbn [e_allbytes e_currentIdx e_sentsegs] in Hb, Hi, Hs.
  rewrite Hb, put_numsegs. cbn [mbind option_bind].
  intros [= <- <-]. exists segidx0, st, records.
  rewrite Hs. done.
Qed.

Lemma read_numsegs (n src dst : Z) (payload : list byte) :
  slice_from (wire_header n src dst ++ payload) 2 ≫= Uint16 = Some (n mod 2 ^ 16).
Proof.
  unfold wire_header. rewrite <- !app_assoc.
  rewrite (slice_from_app_at [_; _] _ 2) by done. cbn [mbind option_bind].
  apply Uint16_be_split.
Qed.

(** C8 (as amended): whenever [EncodeSegments] returns, its buffer
    starts with the 20-byte header: byte 0 is 0, byte 1 is 20, bytes
    4..12 and 12..20 are srcIA and dstIA as big-endian 64-bit values,
    and bytes 2..4 hold the final [currentIdx] reduced modulo 65536,
    where [currentIdx] is [len(oldsegs)] plus the number of records
    that follow the header (one per sent segment). *)
Theorem EncodeSegments_header (newsegs oldsegs : list Segment) (src dst : Z)
    (bytes : list byte) (sent : list Segment) :
  EncodeSegments Fingerprint newsegs oldsegs src dst = Some (bytes, sent) ->
  exists records,
    Forall2 (record_of Fingerprint) records sent /\
    bytes = wire_header (Z.of_nat (length oldsegs + length records) mod 2 ^ 16)
                        src dst ++ concat records /\
    bytes !! 1%nat = Some Byte.x14 /\
    slice_from bytes 2 ≫= Uint16
    = Some (Z.of_nat (length oldsegs + length records) mod 2 ^ 16) /\
    take 8 (drop 4 bytes) = be_split 8 src /\
    take 8 (drop 12 bytes) = be_split 8 dst.
Proof.
  intros (segidx0 & st & records & _ & _ & _ & Hi & Hf & ->)%EncodeSegments_Some.
  exists records. rewrite Hi. split; [done|]. split; [done|].
  split; [done|]. split.
  - rewrite read_numsegs. f_equal. apply Z.mod_mod. done.
  - unfold wire_header. rewrite <- !app_assoc. split.
    + rewrite (app_assoc [_; _] (be_split 2 _)).
      rewrite drop_app_length' by (rewrite length_app, length_be_split; done).
      apply take_app_length'. rewrite length_be_split. done.
    + rewrite (app_assoc [_; _] (be_split 2 _)).
      rewrite (app_assoc (_ ++ _) (be_split 8 src)).
      rewrite drop_app_length' by (rewrite !length_app, !length_be_split; done).
      apply take_app_length'. rewrite length_be_split. done.
Qed.

(** ** Counts that do not fit their field *)

Lemma wire_segment_seglen (accepted : bool) (segidx : gmap string nat)
    (segment : Segment) :
  encodable segment ->
  byte.unsigned <$> wire_segment Fingerprint accepted segidx segment !! 1%nat
  = Some (Z.of_nat (seglen_of segment) mod 256).
Proof.
  destruct segment; [done| |]; intros _; simpl;
    rewrite byte.unsigned_of_Z; reflexivity.
Qed.

(** C10: [EncodeSegment] writes the count of a Literal or Composition
    into the seglen byte modulo 256, and [EncodeSegments] writes the
    final [currentIdx] (the old segments plus one per sent segment)
    into the numsegs field modulo 65536; neither reports an error. *)
Theorem counts_wrap_around (segment : Segment) (accepted : bool)
    (segidx : gmap string nat) (newsegs oldsegs : list Segment) (src dst : Z)
    (bytes : list byte) (sent : list Segment) :
  encodable segment ->
  EncodeSegments Fingerprint newsegs oldsegs src dst = Some (bytes, sent) ->
  (exists record,
     EncodeSegment Fingerprint segment accepted segidx = Some record /\
     byte.unsigned <$> record !! 1%nat
     = Some (Z.of_nat (seglen_of segment) mod 256)) /\
  slice_from bytes 2 ≫= Uint16
  = Some (Z.of_nat (length oldsegs + length sent) mod 65536).
Proof.
  intros Henc Hs. split.
  - eexists. split; [apply EncodeSegment_spec; done|].
    apply wire_segment_seglen. done.
  - apply EncodeSegments_Some in Hs
      as (segidx0 & st & records & _ & _ & _ & Hi & Hf & ->).
    rewrite read_numsegs, Z.mod_mod, Hi by done.
    apply Forall2_length in Hf. rewrite Hf. done.
Qed.

(** ** Single steps of the encoder loops *)

Lemma encode_subseg_fresh (st : EncState) (subseg : Segment) :
  encodable subseg ->
  e_segidx st !! Fingerprint subseg = None ->
  encode_subseg Fingerprint st subseg
  = Some (mkEncState
            (e_allbytes st
             ++ wire_segment Fingerprint false
                  (<[Fingerprint subseg := e_currentIdx st]> (e_segidx st)) subseg)
            (<[Fingerprint subseg := e_currentIdx st]> (e_segidx st))
            (S (e_currentIdx st)) (e_sentsegs st ++ [subseg])).
Proof.
  intros Henc Hnone. unfold encode_subseg.
  rewrite call_Fingerprint_Some by (destruct subseg; done).
  cbn [mbind option_bind]. rewrite Hnone.
  rewrite EncodeSegment_spec by done. done.
Qed.

Lemma encode_subseg_known (st : EncState) (subseg : Segment) :
  subseg <> SegNil ->
  is_Some (e_segidx st !! Fingerprint subseg) ->
  encode_subseg Fingerprint st subseg = Some st.
Proof.
  intros Hnn [k Hk]. unfold encode_subseg.
  rewrite call_Fingerprint_Some by done.
  cbn [mbind option_bind]. rewrite Hk. done.
Qed.

Lemma encode_newseg_fresh (oldsegs : list Segment) (st st1 : EncState)
    (newseg : Segment) :
  encode_subsegs Fingerprint st (RecursiveSubsegments newseg) = Some st1 ->
  encodable newseg ->
  e_segidx st1 !! Fingerprint newseg = None ->
  encode_newseg Fingerprint oldsegs st newseg
  = Some (mkEncState
            (e_allbytes st1
             ++ wire_segment Fingerprint true
                  (<[Fingerprint newseg := e_currentIdx st1]> (e_segidx st1)) newseg)
            (<[Fingerprint newseg := e_currentIdx st1]> (e_segidx st1))
            (S (e_currentIdx st1)) (e_sentsegs st1 ++ [newseg])).
Proof.
  intros Hsub Henc Hnone. unfold encode_newseg. rewrite Hsub.
  cbn [mbind option_bind].
  rewrite call_Fingerprint_Some by (destruct newseg; done).
  cbn [mbind option_bind]. rewrite Hnone.
  rewrite EncodeSegment_spec by done. done.
Qed.

Lemma encode_newseg_known (oldsegs : list Segment) (st st1 : EncState)
    (newseg old : Segment) (idx : nat) :
  encode_subsegs Fingerprint st (RecursiveSubsegments newseg) = Some st1 ->
  newseg <> SegNil ->
  e_segidx st1 !! Fingerprint newseg = Some idx ->
  oldsegs !! idx = Some old ->
  old <> SegNil ->
  encode_newseg Fingerprint oldsegs st newseg
  = Some (mkEncState
            (e_allbytes st1
             ++ wire_segment Fingerprint true (e_segidx st1) (FromSegments [old]))
            (e_segidx st1) (S (e_currentIdx st1))
            (e_sentsegs st1 ++ [FromSegments [old]])).
Proof.
  intros Hsub Hnn Hidx Hold Holdnn. unfold encode_newseg. rewrite Hsub.
  cbn [mbind option_bind].
  rewrite call_Fingerprint_Some by done.
  cbn [mbind option_bind]. rewrite Hidx, Hold. cbn [mbind option_bind].
  rewrite EncodeSegment_spec by (repeat constructor; done). done.
Qed.

(** A top-level segment that was already sent in this call, and not
    found among the old segments, makes [EncodeSegments] panic: the
    index in the table is used to index [oldsegs]. *)
Lemma encode_newseg_known_panics (oldsegs : list Segment) (st st1 : EncState)
    (newseg : Segment) (idx : nat) :
  encode_subsegs Fingerprint st (RecursiveSubsegments newseg) = Some st1 ->
  e_segidx st1 !! Fingerprint newseg = Some idx ->
  (length oldsegs <= idx)%nat ->
  encode_newseg Fingerprint oldsegs st newseg = None.
Proof.
  intros Hsub Hidx Hge. unfold encode_newseg. rewrite Hsub.
  cbn [mbind option_bind].
  destruct (call_Fingerprint _ _) as [fp|] eqn:Hfp; [|done].
  destruct newseg; try done; injection Hfp as <-;
    cbn [mbind option_bind]; rewrite Hidx, lookup_ge_None_2 by done; done.
Qed.

(** ** Nothing to send *)

Lemma index_oldsegs_Some (oldsegs : list Segment) :
  forall (m : gmap string nat) (i : nat),
    Forall (fun s => s <> SegNil) oldsegs ->
    exists m', index_oldsegs Fingerprint m oldsegs i = Some m'.
Proof.
  induction oldsegs as [|o l IH]; intros m i Hnn; simpl; [eauto|].
  apply Forall_cons in Hnn as [Ho Hl].
  rewrite call_Fingerprint_Some by done. simpl. apply IH. done.
Qed.

Lemma EncodeSegments_nothing_new (oldsegs : list Segment) (src dst : Z) :
  Forall (fun s => s <> SegNil) oldsegs ->
  EncodeSegments Fingerprint [] oldsegs src dst
  = Some (wire_header (Z.of_nat (length oldsegs) mod 2 ^ 16) src dst, []).
Proof.
  intros Hnn. unfold EncodeSegments. rewrite encode_header_spec.
  cbn [mbind option_bind].
  destruct (index_oldsegs_Some oldsegs ∅ 0 Hnn) as [m ->].
  cbn [mbind option_bind encode_newsegs e_allbytes e_currentIdx e_sentsegs].
  rewrite <- (app_nil_r (wire_header 0 src dst)), put_numsegs, app_nil_r.
  done.
Qed.

End CodecProperties.

(** ** Scenarios under a collision-free fingerprint *)

Section Scenarios.

Variable Fingerprint : Segment -> string.
Hypothesis Fingerprint_inj : forall s t, Fingerprint s = Fingerprint t -> s = t.

Lemma scenario_fingerprints (X Y : Z) :
  Fingerprint (scenario_L1 X) <> Fingerprint (scenario_L2 Y) /\
  Fingerprint (scenario_L1 X) <> Fingerprint (scenario_C X Y) /\
  Fingerprint (scenario_L2 Y) <> Fingerprint (scenario_C X Y).
Proof.
  repeat split; intros H%Fingerprint_inj; discriminate H.
Qed.

(** The encoder on the two-literal scenario, with no old segments. *)
Lemma scenario_encode (X Y src dst : Z) :
  EncodeSegments Fingerprint [scenario_C X Y] [] src dst
  = Some (wire_header 3 src dst ++ scenario_records X Y,
          [scenario_L1 X; scenario_L2 Y; scenario_C X Y]).
Proof.
  destruct (scenario_fingerprints X Y) as (H12 & H1C & H2C).
  unfold EncodeSegments. rewrite encode_header_spec.
  cbn [mbind option_bind index_oldsegs length encode_newsegs].
  erewrite encode_newseg_fresh; cycle 1.
  - change (RecursiveSubsegments (scenario_C X Y))
      with [scenario_L1 X; scenario_L2 Y].
    cbn [encode_subsegs].
    rewrite encode_subseg_fresh by done.
    cbn [mbind option_bind e_segidx e_currentIdx e_allbytes e_sentsegs].
    rewrite encode_subseg_fresh
      by (done || (cbn [e_segidx]; rewrite lookup_insert_ne, lookup_empty; done)).
    cbn [mbind option_bind e_segidx e_currentIdx e_allbytes e_sentsegs].
    reflexivity.
  - repeat constructor; done.
  - cbn [e_segidx]. rewrite !lookup_insert_ne, lookup_empty; done.
  - cbn [mbind option_bind e_segidx e_currentIdx e_allbytes e_sentsegs].
    rewrite <- !app_assoc, put_numsegs. cbn [mbind option_bind app].
    f_equal. f_equal. apply (f_equal2 app); [reflexivity|].
    unfold scenario_records, literal1_record.
    apply (f_equal2 app); [|apply (f_equal2 app)].
    + cbn [scenario_L1 wire_segment flat_map length]. unfold wire_interface.
      cbn [ID IA]. rewrite app_nil_r. reflexivity.
    + cbn [scenario_L2 wire_segment flat_map length]. unfold wire_interface.
      cbn [ID IA]. rewrite app_nil_r. reflexivity.
    + cbn [scenario_C wire_segment flat_map length]. unfold wire_index, map_get.
      rewrite lookup_insert_ne, lookup_insert_ne, lookup_insert_eq by done.
      rewrite lookup_insert_ne, lookup_insert_eq by done.
      reflexivity.
Qed.

(** The records of the scenario, as the records of its segments. *)
Lemma scenario_records_eq (X Y : Z) :
  scenario_records X Y
  = wire_record (wire_flags false SegTypeLiteral)
      (length [mkPathInterface 1 X])
      (flat_map wire_interface [mkPathInterface 1 X])
    ++ wire_record (wire_flags false SegTypeLiteral)
         (length [mkPathInterface 2 Y])
         (flat_map wire_interface [mkPathInterface 2 Y])
    ++ wire_record (wire_flags true SegTypeComposition)
         (length [0%nat; 1%nat])
         (flat_map (fun k => be_split 2 (Z.of_nat k mod 2 ^ 16)) [0%nat; 1%nat])
    ++ [].
Proof.
  unfold scenario_records, literal1_record, wire_record.
  cbn [flat_map length]. unfold wire_interface. cbn [ID IA].
  rewrite !app_nil_r. reflexivity.
Qed.

(** The decoder on the buffer of the scenario, with no old segments. *)
Lemma scenario_decode (X Y src dst : Z) :
  uint64_range X -> uint64_range Y ->
  uint64_range src -> uint64_range dst ->
  DecodeSegments (wire_header 3 src dst ++ scenario_records X Y) []
  = Some (mkDecoded [scenario_L1 X; scenario_L2 Y; scenario_C X Y]
                    [scenario_C X Y] src dst None).
Proof.
  intros HX HY Hsrc Hdst.
  assert (H1 : Forall interface_ok [mkPathInterface 1 X]).
  { repeat constructor; simpl; unfold uint64_range in *; lia. }
  assert (H2 : Forall interface_ok [mkPathInterface 2 Y]).
  { repeat constructor; simpl; unfold uint64_range in *; lia. }
  rewrite DecodeSegments_wire_header by (done || lia).
  change (Z.to_nat 3) with 3%nat. rewrite scenario_records_eq.
  cbn [replicate decode_records].
  rewrite decode_record_literal by (done || (simpl; lia)).
  cbn [mbind outcome_bind].
  rewrite decode_record_literal by (done || (simpl; lia)).
  cbn [mbind outcome_bind].
  rewrite (decode_record_composition (fun k => k) _ _ _ _ _ _
             [scenario_L1 X; scenario_L2 Y]); [reflexivity|simpl; lia| |simpl; lia].
  repeat constructor.
Qed.

(** C6: with no old segments and the single new segment
    [Composition [Literal [{1, X}]; Literal [{2, Y}]]], [EncodeSegments]
    emits exactly three records after a header with [numsegs = 3]:
    the first Literal (index 0, not accepted), the second Literal
    (index 1, not accepted) and the Composition with the indices 0 and
    1 (index 2, accepted); [DecodeSegments] on that buffer with no old
    segments returns the three segments as new segments and the
    Composition alone as accepted segment. *)
Theorem two_literal_scenario (X Y src dst : Z) :
  uint64_range X -> uint64_range Y ->
  uint64_range src -> uint64_range dst ->
  exists bytes,
    EncodeSegments Fingerprint [scenario_C X Y] [] src dst
    = Some (bytes, [scenario_L1 X; scenario_L2 Y; scenario_C X Y]) /\
    bytes = wire_header 3 src dst ++ scenario_records X Y /\
    slice_from bytes 2 ≫= Uint16 = Some 3 /\
    DecodeSegments bytes []
    = Some (mkDecoded [scenario_L1 X; scenario_L2 Y; scenario_C X Y]
                      [scenario_C X Y] src dst None).
Proof.
  intros HX HY Hsrc Hdst. eexists. split; [apply scenario_encode|].
  split; [done|]. split; [|apply scenario_decode; done].
  unfold wire_header. rewrite <- !app_assoc.
  rewrite (slice_from_app_at [_; _] _ 2) by done. cbn [mbind option_bind].
  rewrite Uint16_be_split. reflexivity.
Qed.

(** C3 (as amended): with the Composition of the two-literal scenario
    as the only old segment and as the only new segment,
    [EncodeSegments] emits three records: the two Literal children
    again, not accepted, at the indices 1 and 2 (their fingerprints
    are not in the index table, which holds the old segments only,
    not their subsegments), and then the single-child Composition
    wrapper, accepted, whose one index is 0; [numsegs] is 4. *)
Theorem reannounce_scenario (X Y src dst : Z) :
  EncodeSegments Fingerprint [scenario_C X Y] [scenario_C X Y] src dst
  = Some (wire_header 4 src dst
          ++ literal1_record 1 X ++ literal1_record 2 Y
          ++ wrapper_record Byte.x00 Byte.x00,
          [scenario_L1 X; scenario_L2 Y; FromSegments [scenario_C X Y]]).
Proof.
  destruct (scenario_fingerprints X Y) as (H12 & H1C & H2C).
  unfold EncodeSegments. rewrite encode_header_spec.
  cbn [mbind option_bind index_oldsegs length encode_newsegs
       call_Fingerprint scenario_C].
  fold (scenario_C X Y).
  erewrite (encode_newseg_known _ _ _ _ _ (scenario_C X Y) 0%nat); cycle 1.
  - change (RecursiveSubsegments (scenario_C X Y))
      with [scenario_L1 X; scenario_L2 Y].
    cbn [encode_subsegs].
    rewrite encode_subseg_fresh
      by (done || (cbn [e_segidx]; rewrite lookup_insert_ne, lookup_empty; done)).
    cbn [mbind option_bind e_segidx e_currentIdx e_allbytes e_sentsegs].
    rewrite encode_subseg_fresh
      by (done || (cbn [e_segidx];
                   rewrite !lookup_insert_ne, lookup_empty; done)).
    cbn [mbind option_bind e_segidx e_currentIdx e_allbytes e_sentsegs].
    reflexivity.
  - done.
  - cbn [e_segidx].
    rewrite lookup_insert_ne, lookup_insert_ne, lookup_insert_eq by done. done.
  - done.
  - done.
  - cbn [mbind option_bind e_segidx e_currentIdx e_allbytes e_sentsegs].
    rewrite <- !app_assoc, put_numsegs. cbn [mbind option_bind app].
    f_equal. f_equal. apply (f_equal2 app); [reflexivity|].
    apply (f_equal2 app); [|apply (f_equal2 app)].
    + cbn [scenario_L1 wire_segment flat_map length]. unfold wire_interface.
      cbn [ID IA]. rewrite app_nil_r. reflexivity.
    + cbn [scenario_L2 wire_segment flat_map length]. unfold wire_interface.
      cbn [ID IA]. rewrite app_nil_r. reflexivity.
    + cbn [FromSegments wire_segment flat_map length]. unfold wire_index, map_get.
      rewrite lookup_insert_ne, lookup_insert_ne, lookup_insert_eq by done.
      reflexivity.
Qed.

(** When the old segments are all three sent segments of the first
    call, the children are known and the wrapper is the only record;
    its index is 2, the position of the Composition. *)
Lemma reannounce_with_children_known (X Y src dst : Z) :
  EncodeSegments Fingerprint [scenario_C X Y]
    [scenario_L1 X; scenario_L2 Y; scenario_C X Y] src dst
  = Some (wire_header 4 src dst ++ wrapper_record Byte.x00 Byte.x02,
          [FromSegments [scenario_C X Y]]).
Proof.
  destruct (scenario_fingerprints X Y) as (H12 & H1C & H2C).
  unfold EncodeSegments. rewrite encode_header_spec.
  cbn [mbind option_bind index_oldsegs length encode_newsegs
       call_Fingerprint scenario_C scenario_L1 scenario_L2].
  fold (scenario_L1 X) (scenario_L2 Y). fold (scenario_C X Y).
  erewrite (encode_newseg_known _ _ _ _ _ (scenario_C X Y) 2%nat); cycle 1.
  - change (RecursiveSubsegments (scenario_C X Y))
      with [scenario_L1 X; scenario_L2 Y].
    cbn [encode_subsegs].
    rewrite encode_subseg_known
      by (done || (cbn [e_segidx];
                   rewrite lookup_insert_ne, lookup_insert_ne, lookup_insert_eq
                     by done; done)).
    cbn [mbind option_bind].
    rewrite encode_subseg_known
      by (done || (cbn [e_segidx];
                   rewrite lookup_insert_ne, lookup_insert_eq by done; done)).
    reflexivity.
  - done.
  - cbn [e_segidx]. rewrite lookup_insert_eq; done.
  - done.
  - done.
  - cbn [mbind option_bind e_segidx e_currentIdx e_allbytes e_sentsegs].
    rewrite put_numsegs. cbn [mbind option_bind app].
    f_equal. f_equal. apply (f_equal2 app); [reflexivity|].
    cbn [FromSegments wire_segment flat_map length]. unfold wire_index, map_get.
    rewrite lookup_insert_eq by done.
    reflexivity.
Qed.

End Scenarios.

(** ** The concrete fingerprint is collision-free *)

Lemma pos_digits_inj (p q : positive) : pos_digits p = pos_digits q -> p = q.
Proof.
  revert q. induction p as [p IH|p IH|]; intros [q|q|]; simpl; try done;
    intros [= H]; f_equal; apply IH; done.
Qed.

Lemma segment_tree_inj (s t : Segment) : segment_tree s = segment_tree t -> s = t.
Proof.
  revert t. induction s as [|ifs|segs IH] using Segment_nested_ind;
    intros [|ifs'|segs']; simpl; try done.
  - intros [= H]. f_equal. revert ifs' H.
    induction ifs as [|[a b] ifs IHl]; intros [|[a' b'] ifs']; simpl; try done.
    intros [= -> -> H]. f_equal. apply IHl. done.
  - intros [= H]. f_equal. revert segs' H.
    induction IH as [|c segs Hc _ IHl]; intros [|c' segs']; simpl; try done.
    intros [= H1 H2]. f_equal; [apply Hc|apply IHl]; done.
Qed.

Lemma FingerprintModel_inj (s t : Segment) :
  FingerprintModel s = FingerprintModel t -> s = t.
Proof.
  unfold FingerprintModel. intros H%pos_digits_inj.
  apply segment_tree_inj. eapply encode_inj. exact H.
Qed.

(** ** Runs of the codec with the concrete fingerprint *)

Lemma two_literal_scenario_witness :
  exists bytes,
    EncodeSegments FingerprintModel [scenario_C 10 20] [] 7 9
    = Some (bytes, [scenario_L1 10; scenario_L2 20; scenario_C 10 20]) /\
    bytes = wire_header 3 7 9 ++ scenario_records 10 20 /\
    slice_from bytes 2 ≫= Uint16 = Some 3 /\
    DecodeSegments bytes []
    = Some (mkDecoded [scenario_L1 10; scenario_L2 20; scenario_C 10 20]
                      [scenario_C 10 20] 7 9 None).
Proof.
  apply (two_literal_scenario FingerprintModel FingerprintModel_inj 10 20 7 9);
    unfold uint64_range; lia.
Defined.

Lemma reannounce_run :
  EncodeSegments FingerprintModel [scenario_C 10 20] [scenario_C 10 20] 7 9
  = Some (wire_header 4 7 9
          ++ literal1_record 1 10 ++ literal1_record 2 20
          ++ wrapper_record Byte.x00 Byte.x00,
          [scenario_L1 10; scenario_L2 20; FromSegments [scenario_C 10 20]]).
Proof. vm_compute. reflexivity. Qed.

Lemma reannounce_scenario_witness :
  EncodeSegments FingerprintModel [scenario_C 10 20] [scenario_C 10 20] 7 9
  = Some (wire_header 4 7 9
          ++ literal1_record 1 10 ++ literal1_record 2 20
          ++ wrapper_record Byte.x00 Byte.x00,
          [scenario_L1 10; scenario_L2 20; FromSegments [scenario_C 10 20]]).
Proof.
  apply (reannounce_scenario FingerprintModel FingerprintModel_inj 10 20 7 9).
Defined.

(** The claim C3 as stated fails: the buffer is not a header followed by
    the wrapper record alone. *)
Lemma reannounce_emits_children :
  ~ (exists header sent,
       length header = 20%nat /\
       EncodeSegments FingerprintModel [scenario_C 10 20] [scenario_C 10 20] 7 9
       = Some (header ++ wrapper_record Byte.x00 Byte.x00, sent)).
Proof.
  intros (header & sent & Hlen & H).
  rewrite reannounce_run in H. injection H as H _.
  apply (f_equal length) in H. rewrite length_app, Hlen in H.
  simpl in H. lia.
Qed.

Lemma EncodeSegments_header_witness :
  exists records,
    Forall2 (record_of FingerprintModel) records
            [scenario_L1 10; scenario_L2 20; scenario_C 10 20] /\
    wire_header 3 7 9 ++ scenario_records 10 20
    = wire_header (Z.of_nat (length (@nil Segment) + length records) mod 2 ^ 16) 7 9
      ++ concat records /\
    (wire_header 3 7 9 ++ scenario_records 10 20) !! 1%nat = Some Byte.x14 /\
    slice_from (wire_header 3 7 9 ++ scenario_records 10 20) 2 ≫= Uint16
    = Some (Z.of_nat (length (@nil Segment) + length records) mod 2 ^ 16) /\
    take 8 (drop 4 (wire_header 3 7 9 ++ scenario_records 10 20)) = be_split 8 7 /\
    take 8 (drop 12 (wire_header 3 7 9 ++ scenario_records 10 20)) = be_split 8 9.
Proof.
  apply (EncodeSegments_header FingerprintModel [scenario_C 10 20] [] 7 9).
  vm_compute. reflexivity.
Defined.

(** The claim C8 as stated fails: with 65536 old segments and nothing to
    send the final index is 65536, and the numsegs field reads 0. *)
Lemma EncodeSegments_numsegs_wraps :
  exists bytes,
    EncodeSegments FingerprintModel [] many_oldsegs 0 0 = Some (bytes, []) /\
    slice_from bytes 2 ≫= Uint16 = Some 0 /\
    Z.of_nat (length many_oldsegs + length (@nil Segment)) = 65536.
Proof.
  eexists. split; [|split].
  - apply EncodeSegments_nothing_new. apply Forall_replicate. done.
  - unfold many_oldsegs. rewrite length_replicate.
    unfold wire_header.
    rewrite (slice_from_app_at [_; _] _ 2) by done. cbn [mbind option_bind].
    rewrite Uint16_be_split. reflexivity.
  - unfold many_oldsegs. rewrite length_replicate. reflexivity.
Qed.

Lemma EncodeSegment_unknown_child_index_zero_witness :
  exists bytes,
    EncodeSegment FingerprintModel (Composition [scenario_L1 10]) true ∅ = Some bytes /\
    forall (i : nat) (child : Segment),
      [scenario_L1 10] !! i = Some child ->
      (∅ : gmap string nat) !! FingerprintModel child = None ->
      bytes !! (4 + i * 2)%nat = Some Byte.x00 /\
      bytes !! (4 + i * 2 + 1)%nat = Some Byte.x00.
Proof.
  apply (EncodeSegment_unknown_child_index_zero FingerprintModel
           [scenario_L1 10] true ∅).
  repeat constructor. discriminate.
Defined.

Lemma counts_wrap_around_witness :
  (exists record,
     EncodeSegment FingerprintModel long_literal false ∅ = Some record /\
     byte.unsigned <$> record !! 1%nat = Some (Z.of_nat 256 mod 256)) /\
  slice_from (wire_header 3 7 9 ++ scenario_records 10 20) 2 ≫= Uint16
  = Some (Z.of_nat (length (@nil Segment) + 3) mod 65536).
Proof.
  apply (counts_wrap_around FingerprintModel long_literal false ∅
           [scenario_C 10 20] [] 7 9
           (wire_header 3 7 9 ++ scenario_records 10 20)
           [scenario_L1 10; scenario_L2 20; scenario_C 10 20]).
  - exact I.
  - vm_compute. reflexivity.
Defined.

(** ** Old segments break the round trip *)

(** C1 (the code departs from the claim): with one old segment and one
    new Literal, [EncodeSegments] writes [numsegs = 2] (the old segment
    is counted) in front of a single record; [DecodeSegments], given the
    same old segment, reads [numsegs] records and panics on the missing
    second one instead of returning the sent segment. *)
Theorem roundtrip_fails_with_old_segment :
  EncodeSegments FingerprintModel [scenario_L2 20] [scenario_L1 10] 7 9
  = Some (wire_header 2 7 9 ++ literal1_record_accepted 2 20, [scenario_L2 20]) /\
  DecodeSegments (wire_header 2 7 9 ++ literal1_record_accepted 2 20) [scenario_L1 10]
  = None.
Proof. split; vm_compute; reflexivity. Qed.

(** ** Round trip without old segments *)

Lemma wire_ok_Composition (segs : list Segment) :
  wire_ok (Composition segs) <-> Z.of_nat (length segs) < 256 /\ Forall wire_ok segs.
Proof.
  simpl. split; intros [Hlen H]; (split; [done|]); clear Hlen.
  - induction segs as [|c l IH]; [constructor|].
    destruct H as [Hc Hl]. constructor; [done|apply IH; done].
  - induction H as [|c l Hc _ IH]; [done|]. split; done.
Qed.

Lemma RecursiveSubsegments_Composition (segs : list Segment) :
  RecursiveSubsegments (Composition segs)
  = flat_map (fun c => RecursiveSubsegments c ++ [c]) segs.
Proof.
  simpl. induction segs as [|c l IH]; [done|]. simpl. rewrite IH. done.
Qed.

Lemma wire_ok_subsegments (s : Segment) :
  wire_ok s -> Forall wire_ok (RecursiveSubsegments s).
Proof.
  induction s as [|ifs|segs IH] using Segment_nested_ind; [done|constructor|].
  intros [_ Hsegs]%wire_ok_Composition.
  rewrite RecursiveSubsegments_Composition.
  induction IH as [|c l Hc _ IHl]; [constructor|].
  apply Forall_cons in Hsegs as [Hokc Hokl]. simpl.
  rewrite !Forall_app. split; [split|].
  - apply Hc. done.
  - constructor; [done|constructor].
  - apply IHl. done.
Qed.

Lemma wire_ok_encodable (s : Segment) : wire_ok s -> encodable s.
Proof.
  destruct s as [|ifs|segs]; [done|done|].
  intros [_ Hsegs]%wire_ok_Composition. simpl.
  eapply Forall_impl; [exact Hsegs|]. intros [| |]; done.
Qed.

Lemma chain_snoc (items : list emitted) :
  forall (prefix : list Segment) (e : emitted),
    chain prefix items ->
    decodes_to (prefix ++ (em_segment <$> items)) e ->
    chain prefix (items ++ [e]).
Proof.
  induction items as [|e0 items IH]; intros prefix e Hc He; simpl in *.
  - rewrite app_nil_r in He. done.
  - destruct Hc as [H0 Hc]. split; [done|].
    apply IH; [done|]. rewrite <- app_assoc. done.
Qed.

Lemma accepted_segments_snoc (items : list emitted) (e : emitted) :
  accepted_segments (items ++ [e])
  = accepted_segments items ++ if em_accepted e then [em_segment e] else [].
Proof.
  unfold accepted_segments. rewrite flat_map_app. simpl.
  rewrite app_nil_r. done.
Qed.

(** The record loop of the decoder follows a chain of emitted records. *)
Lemma decode_records_chain (items : list emitted) :
  forall (prefix : list Segment) (rest : list byte) (tail accs : list Segment),
    chain prefix items ->
    Z.of_nat (length prefix + length items) <= 2 ^ 16 ->
    decode_records []
      (mkDecState (concat (em_record <$> items) ++ rest)
                  (prefix ++ replicate (length items) SegNil ++ tail) accs)
      (length items) (length prefix)
    = Done (mkDecState rest (prefix ++ (em_segment <$> items) ++ tail)
                       (accs ++ accepted_segments items)).
Proof.
  induction items as [|e items IH]; intros prefix rest tail accs Hc Hlen.
  - simpl. rewrite app_nil_r. done.
  - destruct Hc as [He Hc].
    cbn [length replicate fmap list_fmap concat decode_records app].
    rewrite <- app_assoc, He by (simpl in Hlen; lia).
    cbn [mbind outcome_bind].
    specialize (IH (prefix ++ [em_segment e]) rest tail
                   (accs ++ if em_accepted e then [em_segment e] else []) Hc).
    rewrite length_app in IH. simpl in IH.
    replace (length prefix + 1)%nat with (S (length prefix)) in IH by lia.
    rewrite <- !app_assoc in IH. simpl in IH.
    rewrite IH by (simpl in Hlen; lia).
    unfold accepted_segments. simpl. rewrite <- ?app_assoc. done.
Qed.

Lemma insert_next_slot (prefix tail : list Segment) (s : Segment) :
  <[length prefix := s]> (prefix ++ SegNil :: tail) = prefix ++ s :: tail.
Proof.
  rewrite insert_app_r_alt by lia. rewrite Nat.sub_diag. done.
Qed.

Section RoundTrip.

Variable Fingerprint : Segment -> string.
Hypothesis Fingerprint_inj : forall s t, Fingerprint s = Fingerprint t -> s = t.

Lemma decodes_to_literal (prefix : list Segment) (accepted : bool)
    (m : gmap string nat) (interfaces : list PathInterface) :
  wire_ok (Literal interfaces) ->
  decodes_to prefix
    (mkEmitted (wire_segment Fingerprint accepted m (Literal interfaces))
               accepted (Literal interfaces)).
Proof.
  intros [Hlen Hok] rest tail accs Hb. cbn [em_record em_accepted em_segment wire_segment].
  rewrite decode_record_literal; [|done|done|rewrite length_app; simpl; lia].
  rewrite insert_next_slot. done.
Qed.

Lemma decodes_to_composition (prefix : list Segment) (accepted : bool)
    (m : gmap string nat) (segs : list Segment) :
  Z.of_nat (length segs) < 256 ->
  Forall (fun c => exists k, m !! Fingerprint c = Some k /\ prefix !! k = Some c) segs ->
  decodes_to prefix
    (mkEmitted (wire_segment Fingerprint accepted m (Composition segs))
               accepted (Composition segs)).
Proof.
  intros Hlen Hch rest tail accs Hb.
  cbn [em_record em_accepted em_segment wire_segment].
  change (flat_map (wire_index Fingerprint m) segs)
    with (flat_map (fun c => be_split 2
                      (Z.of_nat (map_get m (Fingerprint c)) mod 2 ^ 16)) segs).
  rewrite (decode_record_composition (fun c => map_get m (Fingerprint c))
             _ _ _ _ _ _ segs); [|done| |rewrite length_app; simpl; lia].
  - rewrite insert_next_slot. done.
  - apply Forall2_same_length_lookup_2; [done|].
    intros i c c' Hc Hc'. rewrite Hc in Hc'. injection Hc' as <-.
    rewrite Forall_lookup in Hch. destruct (Hch i c Hc) as (k & Hk & Hp).
    unfold map_get. rewrite Hk. simpl.
    pose proof (lookup_lt_Some _ _ _ Hp) as Hlt.
    split; [lia|]. rewrite lookup_app_l by done. done.
Qed.

(** Emitting the record of a fresh segment whose children are known
    keeps the invariant. *)
Lemma enc_inv_emit (header : list byte) (st : EncState) (items : list emitted)
    (accepted : bool) (s : Segment) :
  enc_inv Fingerprint header st items ->
  wire_ok s ->
  e_segidx st !! Fingerprint s = None ->
  children_in Fingerprint (dom (e_segidx st)) s ->
  let m' := <[Fingerprint s := e_currentIdx st]> (e_segidx st) in
  enc_inv Fingerprint header
    (mkEncState (e_allbytes st ++ wire_segment Fingerprint accepted m' s) m'
                (S (e_currentIdx st)) (e_sentsegs st ++ [s]))
    (items ++ [mkEmitted (wire_segment Fingerprint accepted m' s) accepted s]).
Proof.
  intros (Hb & Hs & Hi & Hc & Ht) Hok Hfresh Hch m'.
  unfold enc_inv. cbn [e_allbytes e_segidx e_currentIdx e_sentsegs].
  rewrite !fmap_app, concat_app, length_app, Hb, Hs, Hi. simpl.
  rewrite app_nil_r, <- app_assoc.
  split; [done|]. split; [done|]. split; [lia|]. split.
  - apply chain_snoc; [done|]. simpl.
    destruct s as [|ifs|segs]; [done| |].
    + apply decodes_to_literal. done.
    + apply wire_ok_Composition in Hok as [Hlen Hsegs].
      apply decodes_to_composition; [done|].
      simpl in Hch. rewrite Forall_forall in Hch. apply Forall_forall.
      intros c Hin. specialize (Hch c Hin).
      apply elem_of_dom in Hch as [k Hk].
      exists k. split.
      * subst m'. rewrite lookup_insert_ne; [done|].
        intros Heq. rewrite Heq, Hk in Hfresh. done.
      * destruct (Ht _ _ Hk) as (s' & Hs' & Hfp).
        apply Fingerprint_inj in Hfp as ->. done.
  - intros fp k. subst m'. rewrite lookup_insert.
    case_decide as Hfp.
    + intros [= <-]. exists s. split; [|done]. rewrite ?Hi.
      rewrite lookup_app_r by (rewrite length_fmap; lia).
      rewrite length_fmap, Nat.sub_diag. done.
    + intros Hk. destruct (Ht _ _ Hk) as (s' & Hs' & Hfp').
      exists s'. split; [|done]. apply lookup_app_l_Some. done.
Qed.

(** *** Post-order lists *)

Lemma children_in_mono (K K' : gset string) (s : Segment) :
  K ⊆ K' -> children_in Fingerprint K s -> children_in Fingerprint K' s.
Proof.
  intros HK. destruct s as [| |segs]; [done|done|]. simpl.
  intros H. eapply Forall_impl; [exact H|]. set_solver.
Qed.

Lemma post_ok_mono (l : list Segment) :
  forall K K' : gset string,
    K ⊆ K' -> post_ok Fingerprint K l -> post_ok Fingerprint K' l.
Proof.
  induction l as [|p l IH]; intros K K' HK; [done|]. simpl.
  intros [Hp Hl]. split.
  - eapply children_in_mono; done.
  - eapply IH; [|exact Hl]. set_solver.
Qed.

Lemma post_ok_app (l1 l2 : list Segment) :
  forall K : gset string,
    post_ok Fingerprint K (l1 ++ l2) <->
    post_ok Fingerprint K l1 /\
    post_ok Fingerprint (K ∪ list_to_set (Fingerprint <$> l1)) l2.
Proof.
  induction l1 as [|p l1 IH]; intros K; simpl.
  - rewrite union_empty_r_L. tauto.
  - rewrite IH. rewrite (assoc_L (∪) K). tauto.
Qed.

Lemma post_ok_children (segs : list Segment) :
  Forall (fun c => forall K : gset string,
            post_ok Fingerprint K (RecursiveSubsegments c ++ [c])) segs ->
  forall K : gset string,
    post_ok Fingerprint K (flat_map (fun c => RecursiveSubsegments c ++ [c]) segs) /\
    Forall (fun c => Fingerprint c ∈
              (list_to_set (Fingerprint <$>
                 flat_map (fun c => RecursiveSubsegments c ++ [c]) segs)
               : gset string)) segs.
Proof.
  induction 1 as [|c l Hc _ IH]; intros K; [split; constructor|].
  cbn [flat_map]. split.
  - apply post_ok_app. split; [apply Hc|apply IH].
  - rewrite !fmap_app, !list_to_set_app_L. constructor.
    + simpl. set_solver.
    + eapply Forall_impl; [apply (IH K)|]. intros x Hx. simpl in Hx. set_solver.
Qed.

Lemma post_ok_subsegments (s : Segment) :
  forall K : gset string, post_ok Fingerprint K (RecursiveSubsegments s ++ [s]).
Proof.
  induction s as [|ifs|segs IH] using Segment_nested_ind; intros K; [done|done|].
  rewrite RecursiveSubsegments_Composition.
  destruct (post_ok_children segs IH K) as [Hpost Hin].
  apply post_ok_app. split; [done|]. simpl. split; [|done].
  eapply Forall_impl; [exact Hin|]. intros x Hx. simpl in Hx. set_solver.
Qed.

(** *** The encoder loops keep the invariant *)

Lemma encode_subsegs_inv (header : list byte) (l : list Segment) :
  forall (st st' : EncState) (items : list emitted) (K : gset string),
    enc_inv Fingerprint header st items ->
    K ⊆ dom (e_segidx st) ->
    post_ok Fingerprint K l ->
    Forall wire_ok l ->
    encode_subsegs Fingerprint st l = Some st' ->
    exists items',
      enc_inv Fingerprint header st' (items ++ items') /\
      K ∪ list_to_set (Fingerprint <$> l) ⊆ dom (e_segidx st') /\
      accepted_segments items' = [].
Proof.
  induction l as [|p l IH]; intros st st' items K Hinv HK Hpost Hok Henc.
  - injection Henc as <-. exists []. rewrite app_nil_r. split; [done|].
    split; [set_solver|done].
  - destruct Hpost as [Hp Hpost]. apply Forall_cons in Hok as [Hokp Hokl].
    cbn [encode_subsegs] in Henc.
    destruct (e_segidx st !! Fingerprint p) as [k|] eqn:Hlook.
    + rewrite encode_subseg_known in Henc
        by (destruct p; done || eauto).
      cbn [mbind option_bind] in Henc.
      destruct (IH st st' items (K ∪ {[Fingerprint p]}) Hinv) as (items' & H1 & H2 & H3);
        try done.
      { apply union_subseteq. split; [done|].
        apply singleton_subseteq_l, elem_of_dom. eauto. }
      exists items'. split; [done|]. split; [|done].
      cbn [fmap list_fmap list_to_set]. set_solver.
    + rewrite encode_subseg_fresh in Henc
        by (done || apply wire_ok_encodable; done).
      cbn [mbind option_bind] in Henc.
      pose proof (enc_inv_emit header st items false p Hinv Hokp Hlook
                    (children_in_mono _ _ _ HK Hp)) as Hinv1.
      cbn zeta in Hinv1.
      eapply (IH _ st' _ (K ∪ {[Fingerprint p]})) in Hinv1
        as (items' & H1 & H2 & H3); [|..|exact Henc]; try done.
      * eexists (_ :: items'). rewrite <- app_assoc in H1. split; [exact H1|].
        split; [|done].
        cbn [fmap list_fmap list_to_set]. set_solver.
      * cbn [e_segidx]. rewrite dom_insert_L. set_solver.
Qed.

Lemma encode_newseg_inv (header : list byte) (st st' : EncState)
    (items : list emitted) (s : Segment) :
  enc_inv Fingerprint header st items ->
  wire_ok s ->
  encode_newseg Fingerprint [] st s = Some st' ->
  exists items',
    enc_inv Fingerprint header st' (items ++ items') /\
    accepted_segments items' = [s].
Proof.
  intros Hinv Hok Henc. unfold encode_newseg in Henc.
  destruct (encode_subsegs _ _ _) as [st1|] eqn:Hsub; [|done].
  cbn [mbind option_bind] in Henc.
  pose proof (post_ok_subsegments s (dom (e_segidx st))) as Hpost.
  apply post_ok_app in Hpost as [Hpost [Hch _]].
  eapply encode_subsegs_inv in Hsub as (items1 & Hinv1 & Hdom & Hacc);
    [|exact Hinv|done|exact Hpost|apply wire_ok_subsegments; done].
  rewrite call_Fingerprint_Some in Henc by (destruct s; done).
  cbn [mbind option_bind] in Henc.
  destruct (e_segidx st1 !! Fingerprint s) as [idx|] eqn:Hlook.
  - rewrite lookup_nil in Henc. done.
  - rewrite EncodeSegment_spec in Henc by (apply wire_ok_encodable; done).
    cbn [mbind option_bind] in Henc. injection Henc as <-.
    pose proof (enc_inv_emit header st1 _ true s Hinv1 Hok Hlook
                  (children_in_mono _ _ _ Hdom Hch)) as Hinv2.
    cbn zeta in Hinv2. rewrite <- app_assoc in Hinv2.
    eexists. split; [exact Hinv2|].
    rewrite accepted_segments_snoc, Hacc. done.
Qed.

Lemma encode_newsegs_inv (header : list byte) (news : list Segment) :
  forall (st st' : EncState) (items : list emitted),
    enc_inv Fingerprint header st items ->
    Forall wire_ok news ->
    encode_newsegs Fingerprint [] st news = Some st' ->
    exists items',
      enc_inv Fingerprint header st' (items ++ items') /\
      accepted_segments items' = news.
Proof.
  induction news as [|s news IH]; intros st st' items Hinv Hok Henc.
  - injection Henc as <-. exists []. rewrite app_nil_r. done.
  - apply Forall_cons in Hok as [Hs Hnews]. cbn [encode_newsegs] in Henc.
    destruct (encode_newseg _ _ _ _) as [st1|] eqn:H1; [|done].
    cbn [mbind option_bind] in Henc.
    eapply encode_newseg_inv in H1 as (items1 & Hinv1 & Hacc1); [|done..].
    eapply IH in Henc as (items2 & Hinv2 & Hacc2); [|exact Hinv1|done].
    exists (items1 ++ items2). rewrite app_assoc. split; [done|].
    unfold accepted_segments in *. rewrite flat_map_app, Hacc1, Hacc2. done.
Qed.

(** X1: Round trip without old segments: whenever [EncodeSegments] returns
    on well-formed new segments and fewer than 65536 segments were sent,
    [DecodeSegments] on the buffer, again without old segments, returns
    the sent segments as new segments, the new segments of the encoder
    call as accepted segments, and both addresses. *)
Theorem roundtrip_without_old_segments (news : list Segment) (src dst : Z)
    (bytes : list byte) (sent : list Segment) :
  Forall wire_ok news ->
  uint64_range src ->
  uint64_range dst ->
  EncodeSegments Fingerprint news [] src dst = Some (bytes, sent) ->
  Z.of_nat (length sent) < 2 ^ 16 ->
  DecodeSegments bytes [] = Some (mkDecoded sent news src dst None).
Proof.
  intros Hok Hsrc Hdst Henc Hlen. unfold EncodeSegments in Henc.
  rewrite encode_header_spec in Henc.
  cbn [mbind option_bind index_oldsegs length] in Henc.
  destruct (encode_newsegs _ _ _ _) as [st|] eqn:Hloop; [|done].
  cbn [mbind option_bind] in Henc.
  assert (H0 : enc_inv Fingerprint (wire_header 0 src dst)
                 (mkEncState (wire_header 0 src dst) ∅ 0 []) []).
  { unfold enc_inv. simpl. rewrite ?app_nil_r.
    repeat split; done. }
  eapply encode_newsegs_inv in Hloop
    as (items & (Hb & Hs & Hi & Hc & _) & Hacc); [|exact H0|exact Hok].
  rewrite app_nil_l in Hb, Hs, Hi, Hc.
  rewrite Hb, put_numsegs in Henc. cbn [mbind option_bind] in Henc.
  apply (inj Some), pair_equal_spec in Henc as [<- <-].
  rewrite Hs, length_fmap in Hlen.
  rewrite Hi, Z.mod_small by lia.
  rewrite DecodeSegments_wire_header by (done || lia).
  rewrite Nat2Z.id.
  pose proof (decode_records_chain items [] [] [] [] Hc) as Hdec.
  simpl in Hdec. rewrite !app_nil_r in Hdec.
  rewrite Hdec by lia. rewrite Hacc, Hs. done.
Qed.

End RoundTrip.

Lemma roundtrip_without_old_segments_witness :
  DecodeSegments (wire_header 3 7 9 ++ scenario_records 10 20) []
  = Some (mkDecoded [scenario_L1 10; scenario_L2 20; scenario_C 10 20]
                    [scenario_C 10 20] 7 9 None).
Proof.
  apply (roundtrip_without_old_segments FingerprintModel FingerprintModel_inj
           [scenario_C 10 20] 7 9).
  - repeat constructor; simpl; unfold uint64_range; lia.
  - unfold uint64_range; lia.
  - unfold uint64_range; lia.
  - vm_compute. reflexivity.
  - simpl. lia.
Defined.

(** ** With old segments the decoder expects too many records *)

Lemma DecodeSegments_newsegs_length (bytes : list byte) (oldsegs : list Segment)
    (r : Decoded) (n : Z) :
  DecodeSegments bytes oldsegs = Some r ->
  err r = None ->
  slice_from bytes 2 ≫= Uint16 = Some n ->
  length (newsegs r) = Z.to_nat n.
Proof.
  unfold DecodeSegments. intros H Herr Hn.
  destruct (bytes !! 1%nat) as [b1|]; [simpl in *|done].
  rewrite Hn in H. simpl in H.
  destruct (slice_from bytes 4 ≫= Uint64) as [src|]; [simpl in *|done].
  destruct (slice_from bytes 12 ≫= Uint64) as [dst|]; [simpl in *|done].
  destruct (slice_from bytes _) as [rest|]; [simpl in *|done].
  destruct (decode_records _ _ _ _) as [st| |] eqn:Hloop; [|by simplify_eq..].
  apply (inj Some) in H. subst r. simpl.
  apply decode_records_Done in Hloop as (Hlen & _).
  simpl in Hlen. rewrite Hlen, length_replicate. done.
Qed.

Section OldSegments.

Variable Fingerprint : Segment -> string.

(** Whatever the new segments are, when there are old segments (fewer
    than 65536) the decoder cannot return the sent segments: it expects
    [len(oldsegs)] more records than the buffer holds. *)
Lemma roundtrip_never_with_old_segments (news olds : list Segment) (src dst : Z)
    (bytes : list byte) (sent : list Segment) (r : Decoded) :
  (0 < length olds)%nat ->
  Z.of_nat (length olds) < 65536 ->
  EncodeSegments Fingerprint news olds src dst = Some (bytes, sent) ->
  DecodeSegments bytes olds = Some r ->
  err r = None ->
  newsegs r <> sent.
Proof.
  intros Hpos Hlt Henc Hdec Herr Heq.
  apply EncodeSegments_Some in Henc
    as (segidx0 & st & records & _ & _ & _ & Hi & Hf & ->).
  pose proof (DecodeSegments_newsegs_length _ _ _ _ Hdec Herr
                (read_numsegs _ _ _ _)) as Hlen.
  apply Forall2_length in Hf.
  rewrite Heq, Z.mod_mod, Hi, Hf in Hlen by done.
  apply (f_equal Z.of_nat) in Hlen.
  rewrite Z2Nat.id in Hlen by (apply Z.mod_pos_bound; done).
  change (2 ^ 16) with 65536 in Hlen.
  set (a := length olds) in *. set (b := length sent) in *.
  destruct (Z.lt_ge_cases (Z.of_nat (a + b)) 65536) as [Hs|Hs].
  - rewrite Z.mod_small in Hlen by lia. lia.
  - replace (Z.of_nat (a + b)) with (Z.of_nat (a + b) - 65536 + 1 * 65536) in Hlen by lia.
    rewrite Z.mod_add in Hlen by done.
    pose proof (Z.mod_pos_bound (Z.of_nat (a + b) - 65536) 65536 eq_refl) as Hb.
    rewrite <- Hlen in Hb.
    rewrite Z.mod_small in Hlen by lia. lia.
Qed.

(** *** Entries of the index table below [len(oldsegs)] *)

Lemma index_oldsegs_entries (l : list Segment) :
  forall (m m' : gmap string nat) (i : nat) (fp : string) (k : nat),
    index_oldsegs Fingerprint m l i = Some m' ->
    m' !! fp = Some k ->
    m !! fp = Some k \/ exists o, o ∈ l /\ Fingerprint o = fp.
Proof.
  induction l as [|o l IH]; intros m m' i fp k H Hk; simpl in H.
  - injection H as <-. left. done.
  - destruct (call_Fingerprint _ o) as [fpo|] eqn:Hfp; [simpl in H|done].
    assert (fpo = Fingerprint o) as -> by (destruct o; simpl in Hfp; congruence).
    destruct (IH _ _ _ _ _ H Hk) as [Hm|(o' & Hin & Ho')].
    + rewrite lookup_insert in Hm. case_decide as Heq.
      * right. exists o. split; [left|done].
      * left. done.
    + right. exists o'. split; [right; done|done].
Qed.

Lemma encode_subseg_old_entries (olds : list Segment) (st st' : EncState)
    (s : Segment) :
  old_entries Fingerprint olds st ->
  encode_subseg Fingerprint st s = Some st' ->
  old_entries Fingerprint olds st' /\
  forall fp k, e_segidx st !! fp = Some k -> e_segidx st' !! fp = Some k.
Proof.
  intros [Hge Hold] H. unfold encode_subseg in H.
  destruct (call_Fingerprint _ s) as [fp0|]; [simpl in H|done].
  destruct (e_segidx st !! fp0) eqn:Hlook.
  - injection H as <-. done.
  - destruct (EncodeSegment _ _ _ _); [simpl in H|done]. injection H as <-.
    split; [split|]; simpl.
    + lia.
    + intros fp k. rewrite lookup_insert. case_decide; [intros [= <-]; lia|].
      apply Hold.
    + intros fp k Hk. rewrite lookup_insert_ne; [done|].
      intros <-. rewrite Hk in Hlook. done.
Qed.

Lemma encode_subsegs_old_entries (olds : list Segment) (l : list Segment) :
  forall st st' : EncState,
    old_entries Fingerprint olds st ->
    encode_subsegs Fingerprint st l = Some st' ->
    old_entries Fingerprint olds st' /\
    forall fp k, e_segidx st !! fp = Some k -> e_segidx st' !! fp = Some k.
Proof.
  induction l as [|s l IH]; intros st st' Hinv H; simpl in H.
  - injection H as <-. done.
  - destruct (encode_subseg _ _ _) as [st1|] eqn:H1; [simpl in H|done].
    apply encode_subseg_old_entries with (olds := olds) in H1 as [Hinv1 Hkeep1];
      [|done].
    apply IH in H as [Hinv' Hkeep']; [|done]. split; [done|]. eauto.
Qed.

(** C4 (the code departs from the claim, for every segment that is not
    among the old ones): [EncodeSegments] with [newsegs = [a; a]]
    panics. The entry that the table holds for [a] when its second
    occurrence is reached has an index at or beyond [len(oldsegs)], and
    the code indexes [oldsegs] with it. *)
Theorem encode_twice_panics (a : Segment) (olds : list Segment) (src dst : Z) :
  Forall (fun o => Fingerprint o <> Fingerprint a) olds ->
  EncodeSegments Fingerprint [a; a] olds src dst = None.
Proof.
  intros Hnew. unfold EncodeSegments. rewrite encode_header_spec.
  cbn [mbind option_bind].
  destruct (index_oldsegs _ _ _ _) as [m0|] eqn:Hm0; [|done].
  cbn [mbind option_bind].
  enough (encode_newsegs Fingerprint olds
            (mkEncState (wire_header 0 src dst) m0 (length olds) []) [a; a] = None)
    as -> by done.
  assert (Hinv0 : old_entries Fingerprint olds
                    (mkEncState (wire_header 0 src dst) m0 (length olds) [])).
  { split; [done|]. simpl. intros fp k Hk _.
    destruct (index_oldsegs_entries _ _ _ _ _ _ Hm0 Hk) as [He|Ho]; [|done].
    rewrite lookup_empty in He. done. }
  assert (Hfresh : forall st, old_entries Fingerprint olds st -> forall k,
            e_segidx st !! Fingerprint a = Some k -> (length olds <= k)%nat).
  { intros st [_ Hold] k Hk. destruct (decide (k < length olds)%nat) as [Hlt|]; [|lia].
    destruct (Hold _ _ Hk Hlt) as (o & Hin & Ho).
    rewrite Forall_forall in Hnew. destruct (Hnew o Hin Ho). }
  cbn [encode_newsegs]. set (st0 := mkEncState _ _ _ _) in *.
  destruct (encode_newseg Fingerprint olds st0 a) as [st2|] eqn:Hfirst; [|done].
  cbn [mbind option_bind].
  assert (exists k, e_segidx st2 !! Fingerprint a = Some k /\ old_entries Fingerprint olds st2)
    as (k & Hk & Hinv2).
  { unfold encode_newseg in Hfirst.
    destruct (encode_subsegs _ st0 _) as [st1|] eqn:Hsub; [simpl in Hfirst|done].
    apply encode_subsegs_old_entries with (olds := olds) in Hsub as [Hinv1 _];
      [|done].
    destruct (call_Fingerprint _ a) as [fp|] eqn:Hfp; [simpl in Hfirst|done].
    assert (fp = Fingerprint a) as -> by (destruct a; simpl in Hfp; congruence).
    destruct (e_segidx st1 !! Fingerprint a) as [k|] eqn:Hlook.
    - rewrite lookup_ge_None_2 in Hfirst by (eapply Hfresh; done). done.
    - destruct (EncodeSegment _ _ _ _); [simpl in Hfirst|done].
      injection Hfirst as <-. exists (e_currentIdx st1). simpl.
      rewrite lookup_insert_eq. split; [done|]. destruct Hinv1 as [Hge Hold].
      split; simpl; [lia|].
      intros fp k. rewrite lookup_insert. case_decide; [intros [= <-]; lia|].
      apply Hold. }
  destruct (encode_subsegs Fingerprint st2 (RecursiveSubsegments a))
    as [st3|] eqn:Hsub.
  - pose proof Hsub as [Hinv3 Hkeep]%(encode_subsegs_old_entries olds); [|done].
    rewrite (encode_newseg_known_panics _ _ _ st3 _ k); [done|done|eauto|].
    eapply Hfresh; eauto.
  - unfold encode_newseg. rewrite Hsub. done.
Qed.

End OldSegments.

Lemma encode_twice_panics_witness :
  EncodeSegments FingerprintModel [scenario_L1 10; scenario_L1 10] [] 7 9 = None.
Proof. apply encode_twice_panics. constructor. Defined.

(** * Further properties of the codec *)

(** ** [RecursiveSubsegments] *)

Lemma seg_size_Composition (segs : list Segment) :
  seg_size (Composition segs) = S (list_sum (seg_size <$> segs)).
Proof.
  simpl. f_equal. induction segs as [|c l IH]; [done|]. simpl. rewrite IH. done.
Qed.

Lemma seg_size_pos (s : Segment) : (0 < seg_size s)%nat.
Proof. destruct s; simpl; lia. Qed.

(** A list in which the children of every entry stand before it. *)
Lemma children_before_app (l1 l2 : list Segment) :
  (forall i p c, l1 !! i = Some p -> c ∈ children p ->
     exists j, (j < i)%nat /\ l1 !! j = Some c) ->
  (forall i p c, l2 !! i = Some p -> c ∈ children p ->
     exists j, (j < length l1 + i)%nat /\ (l1 ++ l2) !! j = Some c) ->
  forall i p c, (l1 ++ l2) !! i = Some p -> c ∈ children p ->
    exists j, (j < i)%nat /\ (l1 ++ l2) !! j = Some c.
Proof.
  intros H1 H2 i p c Hi Hc.
  destruct (decide (i < length l1)%nat) as [Hlt|Hge].
  - rewrite lookup_app_l in Hi by done.
    destruct (H1 i p c Hi Hc) as (j & Hj & Hl). exists j. split; [done|].
    rewrite lookup_app_l by lia. done.
  - rewrite lookup_app_r in Hi by lia.
    destruct (H2 _ p c Hi Hc) as (j & Hj & Hl). exists j. split; [lia|done].
Qed.

(** X13: [RecursiveSubsegments] lists the subsegments in post-order: every
    child of the segment is in the list, and the children of every
    listed segment stand in the list before it. *)
Theorem RecursiveSubsegments_post_order (s : Segment) :
  (forall c, c ∈ children s -> c ∈ RecursiveSubsegments s) /\
  (forall i p c, RecursiveSubsegments s !! i = Some p -> c ∈ children p ->
     exists j, (j < i)%nat /\ RecursiveSubsegments s !! j = Some c).
Proof.
  induction s as [|ifs|segs IH] using Segment_nested_ind.
  - split; [intros c Hc; inversion Hc|intros i p c Hi; done].
  - split; [intros c Hc; inversion Hc|intros i p c Hi; done].
  - rewrite RecursiveSubsegments_Composition. simpl.
    induction IH as [|c0 l [Hin0 Hpre0] _ [IHin IHpre]]; simpl.
    + split; [intros c Hc; inversion Hc|intros i p c Hi; done].
    + split.
      * intros c [->|Hc]%elem_of_cons.
        -- rewrite !elem_of_app. left. right. left.
        -- rewrite elem_of_app. right. apply IHin. done.
      * apply children_before_app.
        -- apply children_before_app; [exact Hpre0|].
           intros [|i] p c Hi Hc; [|done]. injection Hi as <-.
           apply Hin0, list_elem_of_lookup in Hc as [j Hj].
           exists j. pose proof (lookup_lt_Some _ _ _ Hj).
           split; [lia|]. rewrite lookup_app_l by done. done.
        -- intros i p c Hi Hc. destruct (IHpre i p c Hi Hc) as (j & Hj & Hl).
           exists (length (RecursiveSubsegments c0 ++ [c0]) + j)%nat.
           split; [lia|]. rewrite lookup_app_r by lia.
           rewrite <- Hl. f_equal. lia.
Qed.

(** X14: every listed subsegment is a strictly smaller tree than the
    segment (so the segment itself is never listed), and the list has
    one entry per node of the tree below the root. *)
Theorem RecursiveSubsegments_proper (s : Segment) :
  S (length (RecursiveSubsegments s)) = seg_size s /\
  Forall (fun p => (seg_size p < seg_size s)%nat) (RecursiveSubsegments s).
Proof.
  induction s as [|ifs|segs IH] using Segment_nested_ind; [done|done|].
  rewrite RecursiveSubsegments_Composition, seg_size_Composition.
  enough (length (flat_map (fun c => RecursiveSubsegments c ++ [c]) segs)
          = list_sum (seg_size <$> segs) /\
          Forall (fun p => (seg_size p <= list_sum (seg_size <$> segs))%nat)
                 (flat_map (fun c => RecursiveSubsegments c ++ [c]) segs))
    as [Hlen Hall].
  { split; [lia|]. eapply Forall_impl; [exact Hall|]. simpl. lia. }
  induction IH as [|c l [Hlenc Hallc] _ [IHlen IHall]]; [split; [done|constructor]|].
  simpl. rewrite !length_app, IHlen. simpl.
  change (list_fmap Segment nat seg_size l) with (seg_size <$> l).
  split; [lia|].
  rewrite !Forall_app. split; [split|].
  - eapply Forall_impl; [exact Hallc|]. simpl. lia.
  - constructor; [lia|constructor].
  - eapply Forall_impl; [exact IHall|]. simpl. lia.
Qed.

(** ** [EncodeInterfaces] and [DecodeInterfaces] *)

Lemma overwrite_length (b src b' : list byte) (off : nat) :
  overwrite b off src = Some b' -> length b' = length b.
Proof.
  unfold overwrite. case_decide; [|done]. intros [= <-].
  rewrite !length_app, length_take, length_drop. lia.
Qed.

Lemma overwrite_Some (b src : list byte) (off : nat) :
  is_Some (overwrite b off src) <-> (off + length src <= length b)%nat.
Proof.
  unfold overwrite. case_decide; split; try done; try lia.
  all: intros [? ?]; done.
Qed.

Lemma EncodeInterfaces_from_window (interfaces : list PathInterface) :
  forall (pre old post : list byte) (base i : nat),
    length pre = (base + i * 16)%nat ->
    length old = (length interfaces * 16)%nat ->
    EncodeInterfaces_from (pre ++ old ++ post) base interfaces i
    = Some (pre ++ flat_map wire_interface interfaces ++ post).
Proof.
  induction interfaces as [|iface rest IH]; intros pre old post base i Hpre Hold.
  - destruct old; [done|]. simpl in Hold. lia.
  - cbn [EncodeInterfaces_from length flat_map] in *.
    rewrite <- (take_drop 8 old), <- (take_drop 8 (drop 8 old)), <- !app_assoc.
    unfold PutUint64.
    rewrite overwrite_app
      by (rewrite ?length_be_split, ?length_take, ?length_drop; lia).
    cbn [mbind option_bind].
    rewrite (app_assoc pre (be_split 8 (ID iface))).
    rewrite overwrite_app
      by (rewrite ?length_app, ?length_be_split, ?length_take, ?length_drop; lia).
    cbn [mbind option_bind].
    rewrite (app_assoc (pre ++ _)).
    rewrite IH
      by (rewrite ?length_app, ?length_be_split, ?length_drop; lia).
    unfold wire_interface. rewrite <- !app_assoc. done.
Qed.

Lemma EncodeInterfaces_window (bytes : list byte) (base : nat)
    (interfaces : list PathInterface) :
  (base + length interfaces * 16 <= length bytes)%nat ->
  EncodeInterfaces_from bytes base interfaces 0
  = Some (take base bytes ++ flat_map wire_interface interfaces
          ++ drop (base + length interfaces * 16) bytes).
Proof.
  intros Hlen.
  rewrite <- (take_drop base bytes) at 1.
  rewrite <- (take_drop (length interfaces * 16) (drop base bytes)) at 1.
  rewrite EncodeInterfaces_from_window
    by (rewrite ?length_take, ?length_drop; lia).
  rewrite drop_drop. done.
Qed.

(** X10: when the buffer holds 16 bytes per interface from [base] on,
    [EncodeInterfaces] overwrites exactly those bytes with the
    interfaces (ID then IA, big-endian) and leaves every other byte of
    the buffer as it was. *)
Theorem EncodeInterfaces_writes_window (bytes : list byte) (base : nat)
    (interfaces : list PathInterface) :
  (base + length interfaces * 16 <= length bytes)%nat ->
  EncodeInterfaces bytes base interfaces
  = Some (take base bytes ++ flat_map wire_interface interfaces
          ++ drop (base + length interfaces * 16) bytes).
Proof.
  intros Hlen. unfold EncodeInterfaces. apply EncodeInterfaces_window. done.
Qed.

Lemma EncodeInterfaces_writes_window_witness :
  EncodeInterfaces (make_bytes 20) 2 [mkPathInterface 1 5]
  = Some (take 2 (make_bytes 20) ++ flat_map wire_interface [mkPathInterface 1 5]
          ++ drop (2 + 1 * 16) (make_bytes 20)).
Proof. apply EncodeInterfaces_writes_window. simpl. lia. Defined.

Lemma EncodeInterfaces_from_Some (interfaces : list PathInterface) :
  forall (bytes bytes' : list byte) (base i : nat),
    EncodeInterfaces_from bytes base interfaces i = Some bytes' ->
    interfaces = [] \/ (base + (i + length interfaces) * 16 <= length bytes)%nat.
Proof.
  induction interfaces as [|iface rest IH]; intros bytes bytes' base i H; [by left|].
  right. cbn [EncodeInterfaces_from] in H. unfold PutUint64 in H.
  destruct (overwrite bytes _ _) as [b1|] eqn:H1; [cbn [mbind option_bind] in H|done].
  destruct (overwrite b1 _ _) as [b2|] eqn:H2; [cbn [mbind option_bind] in H|done].
  pose proof (overwrite_length _ _ _ _ H1) as Hl1.
  pose proof (overwrite_length _ _ _ _ H2) as Hl2.
  assert (is_Some (overwrite b1 (base + (i * 16 + 8)) (be_split 8 (IA iface))))
    as Hb%overwrite_Some by eauto.
  rewrite length_be_split in Hb.
  destruct (IH _ _ _ _ H) as [->|Hrest]; simpl in *; lia.
Qed.

(** X11: [EncodeInterfaces] panics exactly when there is an interface to
    write and the buffer is shorter than [base] plus 16 bytes per
    interface; with no interface it returns the buffer untouched. *)
Theorem EncodeInterfaces_panics_iff (bytes : list byte) (base : nat)
    (interfaces : list PathInterface) :
  EncodeInterfaces bytes base interfaces = None <->
  interfaces <> [] /\ (length bytes < base + length interfaces * 16)%nat.
Proof.
  split.
  - intros H. destruct interfaces as [|iface rest]; [done|]. split; [done|].
    destruct (decide (length bytes < base + length (iface :: rest) * 16)%nat)
      as [|Hge]; [done|].
    unfold EncodeInterfaces in H. rewrite EncodeInterfaces_window in H by lia. done.
  - intros [Hne Hlt].
    destruct (EncodeInterfaces bytes base interfaces) as [b|] eqn:H; [|done].
    apply EncodeInterfaces_from_Some in H as [->|H]; [done|lia].
Qed.

Lemma DecodeInterfaces_from_Some (n : nat) :
  forall (bytes : list byte) (i : nat) (interfaces : list PathInterface),
    DecodeInterfaces_from bytes n i = Some interfaces ->
    length interfaces = n /\
    Forall interface_ok interfaces /\
    (n = 0%nat \/ ((i + n) * 16 <= length bytes)%nat).
Proof.
  induction n as [|n IH]; intros bytes i interfaces H; simpl in H.
  - injection H as <-. repeat split; [constructor|by left].
  - unfold decode_interface in H.
    destruct (slice_from bytes (i * 16)) as [b1|] eqn:Hb1; [simpl in H|done].
    destruct (Uint64 b1) as [id|] eqn:Hid; [simpl in H|done].
    destruct (slice_from bytes (i * 16 + 8)) as [b2|] eqn:Hb2; [simpl in H|done].
    destruct (Uint64 b2) as [ia|] eqn:Hia; [simpl in H|done].
    destruct (DecodeInterfaces_from bytes n (S i)) as [rest|] eqn:Hrest;
      [simpl in H|done].
    injection H as <-. apply IH in Hrest as (Hlen & Hok & Hbound).
    assert (Hr : forall b v, Uint64 b = Some v -> uint64_range v).
    { intros b v Hv. unfold Uint64 in Hv. case_decide; [|done].
      injection Hv as <-. unfold be_combine, uint64_range.
      pose proof (le_combine_bound (rev (take 8 b))) as Hbd.
      rewrite length_rev, length_take, Nat.min_l in Hbd by done. exact Hbd. }
    split; [simpl; lia|]. split.
    + constructor; [|done]. split; simpl; eauto.
    + right. apply slice_from_Some in Hb2 as [Hle ->].
      unfold Uint64 in Hia. case_decide as Hlen8; [|done].
      rewrite length_drop in Hlen8. destruct Hbound as [->|Hbound]; lia.
Qed.

(** X9: [DecodeInterfaces] panics unless the buffer holds 16 bytes per
    requested interface (none requested always succeeds); when it
    returns, it returns exactly [seglen] interfaces, each with 64-bit
    fields. *)
Theorem DecodeInterfaces_bounds (bytes : list byte) (seglen : nat) :
  (is_Some (DecodeInterfaces bytes seglen) <->
   seglen = 0%nat \/ (seglen * 16 <= length bytes)%nat) /\
  (forall interfaces, DecodeInterfaces bytes seglen = Some interfaces ->
     length interfaces = seglen /\ Forall interface_ok interfaces).
Proof.
  unfold DecodeInterfaces. split; [split|].
  - intros [ifs H]. apply DecodeInterfaces_from_Some in H as (_ & _ & H). done.
  - intros [->|Hlen]; [by eexists|].
    enough (forall n i, ((i + n) * 16 <= length bytes)%nat ->
              is_Some (DecodeInterfaces_from bytes n i)) as Hen
      by (apply Hen; done).
    clear. induction n as [|n IH]; intros i Hlen; [by eexists|].
    simpl. unfold decode_interface, slice_from, Uint64.
    repeat (case_decide; [|lia]); simpl.
    rewrite !length_drop. repeat (case_decide; [|lia]); simpl.
    destruct (IH (S i)) as [rest ->]; [lia|]. by eexists.
  - intros ifs H. apply DecodeInterfaces_from_Some in H as (? & ? & _). done.
Qed.

(** X12: round trip of the interface lists: what [EncodeInterfaces]
    writes at [base], [DecodeInterfaces] reads back from [bytes[base:]]
    as the same interfaces, provided their fields are 64-bit values. *)
Theorem interfaces_round_trip (bytes : list byte) (base : nat)
    (interfaces : list PathInterface) :
  (base + length interfaces * 16 <= length bytes)%nat ->
  Forall interface_ok interfaces ->
  exists bytes',
    EncodeInterfaces bytes base interfaces = Some bytes' /\
    length bytes' = length bytes /\
    (slice_from bytes' base ≫= fun w => DecodeInterfaces w (length interfaces))
    = Some interfaces.
Proof.
  intros Hlen Hok. eexists. split; [apply EncodeInterfaces_window; done|].
  split.
  - rewrite !length_app, length_take, length_drop,
      (length_flat_map_fixed _ 16) by apply length_wire_interface. lia.
  - rewrite slice_from_app_at by (rewrite length_take; lia).
    cbn [mbind option_bind]. unfold DecodeInterfaces.
    apply (DecodeInterfaces_from_wire interfaces [] _ 0); done.
Qed.

Lemma interfaces_round_trip_witness :
  exists bytes',
    EncodeInterfaces (make_bytes 36) 4 [mkPathInterface 1 5; mkPathInterface 2 6]
    = Some bytes' /\
    length bytes' = length (make_bytes 36) /\
    (slice_from bytes' 4 ≫= fun w => DecodeInterfaces w 2)
    = Some [mkPathInterface 1 5; mkPathInterface 2 6].
Proof.
  apply (interfaces_round_trip (make_bytes 36) 4
           [mkPathInterface 1 5; mkPathInterface 2 6]).
  - simpl. lia.
  - repeat constructor; simpl; unfold uint64_range; lia.
Defined.

(** ** [EncodeSegment] *)

Lemma nil_member_or_not (segs : list Segment) :
  SegNil ∈ segs \/ Forall (fun s => s <> SegNil) segs.
Proof.
  induction segs as [|c l [IH|IH]].
  - right. constructor.
  - left. right. done.
  - destruct c; [left; left|right; constructor; done..].
Qed.

Section EncodeSegmentProperties.

Variable Fingerprint : Segment -> string.

(** X15: [EncodeSegment] panics exactly on a [nil] segment and on a
    Composition with a [nil] child; the index table never makes it
    fail. *)
Theorem EncodeSegment_panics_iff (segment : Segment) (accepted : bool)
    (segidx : gmap string nat) :
  EncodeSegment Fingerprint segment accepted segidx = None <->
  segment = SegNil \/
  exists segs, segment = Composition segs /\ SegNil ∈ segs.
Proof.
  split.
  - intros H. destruct segment as [|ifs|segs]; [by left| |].
    + rewrite EncodeSegment_spec in H by done. done.
    + right. exists segs. split; [done|].
      destruct (nil_member_or_not segs) as [|Hnot]; [done|].
      rewrite EncodeSegment_spec in H by done. done.
  - intros Hbad.
    destruct (EncodeSegment Fingerprint segment accepted segidx) as [b|] eqn:H;
      [|done].
    apply EncodeSegment_Some_encodable in H.
    destruct Hbad as [->|(segs & -> & Hin)]; [done|].
    simpl in H. rewrite Forall_forall in H. destruct (H _ Hin). done.
Qed.

Lemma length_wire_segment (accepted : bool) (segidx : gmap string nat)
    (segment : Segment) :
  length (wire_segment Fingerprint accepted segidx segment) = wire_size segment.
Proof.
  destruct segment as [|ifs|segs]; [done| |]; cbn [wire_segment wire_size];
    rewrite length_wire_record.
  - rewrite (length_flat_map_fixed _ 16) by apply length_wire_interface. done.
  - rewrite (length_flat_map_fixed _ 2) by (intros; apply length_be_split). done.
Qed.

(** X16: the record of a segment with fewer than 256 entries frames
    itself: it is 4 bytes plus 16 per interface or 2 per subsegment, its
    flags byte carries the type in bit 0 and the accepted bit in bit 1,
    its optlen is 0, and the size read off its own header bytes is its
    length, whatever follows it in the buffer. *)
Theorem EncodeSegment_frames_itself (segment : Segment) (accepted : bool)
    (segidx : gmap string nat) :
  encodable segment ->
  Z.of_nat (seglen_of segment) < 256 ->
  exists record flags,
    EncodeSegment Fingerprint segment accepted segidx = Some record /\
    length record = wire_size segment /\
    record !! 0%nat = Some flags /\
    accepted_bit flags = accepted /\
    Z.testbit (byte.unsigned flags) 0
    = (if segment is Composition _ then true else false) /\
    forall rest, record_size (record ++ rest) = Some (length record).
Proof.
  intros Henc Hlen.
  exists (wire_segment Fingerprint accepted segidx segment).
  destruct segment as [|ifs|segs]; [done| |]; simpl in Hlen.
  - exists (byte.of_Z (wire_flags accepted SegTypeLiteral)).
    split; [apply EncodeSegment_spec; done|].
    split; [apply length_wire_segment|].
    split; [done|]. split; [destruct accepted; reflexivity|].
    split; [destruct accepted; reflexivity|].
    intros rest. rewrite length_wire_segment. cbn [wire_segment wire_size].
    destruct (wire_record_fields (wire_flags accepted SegTypeLiteral)
                (length ifs) (flat_map wire_interface ifs) rest)
      as (H0 & H1 & H2 & _).
    unfold record_size. rewrite H0, H1, H2. cbn [mbind option_bind].
    rewrite Uint16_be_split. cbn [mbind option_bind].
    rewrite seglen_byte by done.
    replace (Z.testbit (byte.unsigned (byte.of_Z (wire_flags accepted SegTypeLiteral))) 0)
      with false by (destruct accepted; reflexivity).
    change (Z.to_nat (0 mod 2 ^ 16)) with 0%nat. f_equal. lia.
  - exists (byte.of_Z (wire_flags accepted SegTypeComposition)).
    split; [apply EncodeSegment_spec; done|].
    split; [apply length_wire_segment|].
    split; [done|]. split; [destruct accepted; reflexivity|].
    split; [destruct accepted; reflexivity|].
    intros rest. rewrite length_wire_segment. cbn [wire_segment wire_size].
    destruct (wire_record_fields (wire_flags accepted SegTypeComposition)
                (length segs) (flat_map (wire_index Fingerprint segidx) segs) rest)
      as (H0 & H1 & H2 & _).
    unfold record_size. rewrite H0, H1, H2. cbn [mbind option_bind].
    rewrite Uint16_be_split. cbn [mbind option_bind].
    rewrite seglen_byte by done.
    replace (Z.testbit (byte.unsigned (byte.of_Z (wire_flags accepted SegTypeComposition))) 0)
      with true by (destruct accepted; reflexivity).
    change (Z.to_nat (0 mod 2 ^ 16)) with 0%nat. f_equal. lia.
Qed.

End EncodeSegmentProperties.

Lemma EncodeSegment_frames_itself_witness :
  exists record flags,
    EncodeSegment FingerprintModel (scenario_C 10 20) true ∅ = Some record /\
    length record = wire_size (scenario_C 10 20) /\
    record !! 0%nat = Some flags /\
    accepted_bit flags = true /\
    Z.testbit (byte.unsigned flags) 0 = true /\
    forall rest, record_size (record ++ rest) = Some (length record).
Proof.
  apply (EncodeSegment_frames_itself FingerprintModel (scenario_C 10 20) true ∅).
  - repeat constructor; discriminate.
  - simpl. lia.
Defined.

(** ** [EncodeSegments] *)

Section EncodeSegmentsProperties.

Variable Fingerprint : Segment -> string.

(** X17: the buffer of [EncodeSegments] is the 20 header bytes followed
    by the records of the sent segments: its length is 20 plus, for each
    sent segment, 4 bytes and 16 per interface or 2 per subsegment. *)
Theorem EncodeSegments_length (newsegs oldsegs : list Segment) (src dst : Z)
    (bytes : list byte) (sent : list Segment) :
  EncodeSegments Fingerprint newsegs oldsegs src dst = Some (bytes, sent) ->
  length bytes = (20 + sum_list (wire_size <$> sent))%nat.
Proof.
  intros (segidx0 & st & records & _ & _ & _ & _ & Hf & ->)%EncodeSegments_Some.
  rewrite length_app, length_wire_header. f_equal.
  induction Hf as [|r s records sent [_ (acc & m & ->)] _ IH]; [done|].
  simpl. rewrite length_app, length_wire_segment, IH. done.
Qed.

Lemma index_oldsegs_nil (l : list Segment) :
  forall (m : gmap string nat) (k : nat),
    SegNil ∈ l -> index_oldsegs Fingerprint m l k = None.
Proof.
  induction l as [|o l IH]; intros m k Hin; [inversion Hin|].
  apply elem_of_cons in Hin as [<-|Hin]; [done|].
  simpl. destruct (call_Fingerprint _ o); [simpl|done]. apply IH. done.
Qed.

Lemma encode_newsegs_nil (oldsegs news : list Segment) :
  forall st : EncState,
    SegNil ∈ news -> encode_newsegs Fingerprint oldsegs st news = None.
Proof.
  induction news as [|s news IH]; intros st Hin; [inversion Hin|].
  apply elem_of_cons in Hin as [<-|Hin]; simpl.
  - unfold encode_newseg. simpl. done.
  - destruct (encode_newseg _ _ _ _); [simpl|done]. apply IH. done.
Qed.

(** X18: a [nil] segment among the old or the new segments makes
    [EncodeSegments] panic (a method call on a nil interface). *)
Theorem EncodeSegments_nil_panics (newsegs oldsegs : list Segment) (src dst : Z) :
  SegNil ∈ oldsegs \/ SegNil ∈ newsegs ->
  EncodeSegments Fingerprint newsegs oldsegs src dst = None.
Proof.
  intros Hnil. unfold EncodeSegments. rewrite encode_header_spec.
  cbn [mbind option_bind].
  destruct (index_oldsegs _ _ _ _) as [m|] eqn:Hm; [cbn [mbind option_bind]|done].
  destruct Hnil as [Hin|Hin].
  - rewrite index_oldsegs_nil in Hm by done. done.
  - rewrite encode_newsegs_nil by done. done.
Qed.

(** *** Nothing is sent twice *)

Lemma sent_indexed_emit (st : EncState) (s : Segment) (record : list byte) :
  sent_indexed Fingerprint st ->
  e_segidx st !! Fingerprint s = None ->
  sent_indexed Fingerprint
    (mkEncState (e_allbytes st ++ record)
                (<[Fingerprint s := e_currentIdx st]> (e_segidx st))
                (S (e_currentIdx st)) (e_sentsegs st ++ [s])).
Proof.
  intros [Hnd Hall] Hfresh. split; simpl.
  - rewrite fmap_app. apply NoDup_app. split; [done|]. split; [|apply NoDup_singleton].
    intros fp Hfp Hin. apply list_elem_of_singleton in Hin as ->.
    apply list_elem_of_fmap in Hfp as (s' & Heq & Hs').
    destruct (Hall s' Hs') as [k Hk]. rewrite <- Heq, Hfresh in Hk. done.
  - intros s' [Hs'|Hs']%elem_of_app.
    + destruct (Hall s' Hs') as [k Hk].
      destruct (decide (Fingerprint s = Fingerprint s')) as [Heq|Hne].
      * rewrite Heq, lookup_insert_eq. eauto.
      * rewrite lookup_insert_ne by done. eauto.
    + apply list_elem_of_singleton in Hs' as ->. rewrite lookup_insert_eq. eauto.
Qed.

Lemma encode_subsegs_sent_indexed (l : list Segment) :
  forall st st' : EncState,
    sent_indexed Fingerprint st ->
    encode_subsegs Fingerprint st l = Some st' ->
    sent_indexed Fingerprint st' /\ e_sentsegs st ⊆ e_sentsegs st'.
Proof.
  induction l as [|p l IH]; intros st st' Hinv H; simpl in H.
  - injection H as <-. done.
  - unfold encode_subseg in H.
    destruct (call_Fingerprint _ p) as [fp|] eqn:Hfp; [simpl in H|done].
    assert (fp = Fingerprint p) as -> by (destruct p; simpl in Hfp; congruence).
    destruct (e_segidx st !! Fingerprint p) eqn:Hlook; simpl in H.
    + apply IH in H; done.
    + destruct (EncodeSegment _ _ _ _) as [record|]; [simpl in H|done].
      apply IH in H as [Hinv' Hsub]; [|apply sent_indexed_emit; done].
      split; [done|]. simpl in Hsub. set_solver.
Qed.

Lemma encode_newsegs_sent_indexed (news : list Segment) :
  forall st st' : EncState,
    sent_indexed Fingerprint st ->
    encode_newsegs Fingerprint [] st news = Some st' ->
    sent_indexed Fingerprint st' /\
    e_sentsegs st ⊆ e_sentsegs st' /\
    forall s, s ∈ news -> s ∈ e_sentsegs st'.
Proof.
  induction news as [|s news IH]; intros st st' Hinv H; simpl in H.
  - injection H as <-. split; [done|]. split; [done|]. intros s Hs. inversion Hs.
  - unfold encode_newseg in H.
    destruct (encode_subsegs _ _ _) as [st1|] eqn:Hsub; [simpl in H|done].
    apply encode_subsegs_sent_indexed in Hsub as [Hinv1 Hsub1]; [|done].
    destruct (call_Fingerprint _ s) as [fp|] eqn:Hfp; [simpl in H|done].
    assert (fp = Fingerprint s) as -> by (destruct s; simpl in Hfp; congruence).
    destruct (e_segidx st1 !! Fingerprint s) eqn:Hlook; simpl in H.
    + done.
    + destruct (EncodeSegment _ _ _ _) as [record|]; [simpl in H|done].
      apply IH in H as (Hinv' & Hsub' & Hnews); [|apply sent_indexed_emit; done].
      simpl in Hsub'. split; [done|]. split; [set_solver|].
      intros s' [->|Hs']%elem_of_cons; [set_solver|eauto].
Qed.

(** X19: with no old segments, whenever [EncodeSegments] returns, the
    sent segments have pairwise different fingerprints (no content is
    sent twice) and every new segment is among them. *)
Theorem EncodeSegments_sends_once (newsegs : list Segment) (src dst : Z)
    (bytes : list byte) (sent : list Segment) :
  EncodeSegments Fingerprint newsegs [] src dst = Some (bytes, sent) ->
  NoDup (Fingerprint <$> sent) /\ forall s, s ∈ newsegs -> s ∈ sent.
Proof.
  intros (segidx0 & st & records & Hm & Hloop & <- & _)%EncodeSegments_Some.
  apply encode_newsegs_sent_indexed in Hloop as ([Hnd _] & _ & Hnews); [done|].
  split; simpl; [constructor|]. intros s Hs. inversion Hs.
Qed.

End EncodeSegmentsProperties.

Lemma EncodeSegments_length_witness :
  length (wire_header 3 7 9 ++ scenario_records 10 20)
  = (20 + sum_list (wire_size <$> [scenario_L1 10; scenario_L2 20; scenario_C 10 20]))%nat.
Proof.
  apply (EncodeSegments_length FingerprintModel [scenario_C 10 20] [] 7 9).
  vm_compute. reflexivity.
Defined.

Lemma EncodeSegments_nil_panics_witness :
  EncodeSegments FingerprintModel [scenario_L1 10; SegNil] [] 7 9 = None.
Proof.
  apply EncodeSegments_nil_panics. right. right. left.
Defined.

Lemma EncodeSegments_sends_once_witness :
  NoDup (FingerprintModel <$> [scenario_L1 10; scenario_L2 20; scenario_C 10 20]) /\
  forall s, s ∈ [scenario_C 10 20] ->
            s ∈ [scenario_L1 10; scenario_L2 20; scenario_C 10 20].
Proof.
  apply (EncodeSegments_sends_once FingerprintModel [scenario_C 10 20] 7 9
           (wire_header 3 7 9 ++ scenario_records 10 20)).
  vm_compute. reflexivity.
Defined.

(** ** Re-announcing an old segment *)

Section Reannounce.

Variable Fingerprint : Segment -> string.

(** The index table of old segments with pairwise different
    fingerprints: each old segment is found at its position. *)
Lemma index_oldsegs_positions (l : list Segment) :
  forall (m : gmap string nat) (k : nat),
    Forall (fun s => s <> SegNil) l ->
    NoDup (Fingerprint <$> l) ->
    exists m',
      index_oldsegs Fingerprint m l k = Some m' /\
      (forall j o, l !! j = Some o -> m' !! Fingerprint o = Some (k + j)%nat) /\
      (forall fp, fp ∉ Fingerprint <$> l -> m' !! fp = m !! fp).
Proof.
  induction l as [|o l IH]; intros m k Hnn Hnd.
  - exists m. split; [done|]. split; [intros j o Hj; done|done].
  - apply Forall_cons in Hnn as [Ho Hl].
    rewrite fmap_cons in Hnd. apply NoDup_cons in Hnd as [Hnotin Hnd].
    destruct (IH (<[Fingerprint o := k]> m) (S k) Hl Hnd) as (m' & Hm' & Hpos & Hkeep).
    exists m'. split; [|split].
    + simpl. rewrite call_Fingerprint_Some by done. done.
    + intros [|j] o' Hj; simpl in Hj.
      * injection Hj as <-. rewrite Hkeep by done.
        rewrite lookup_insert_eq. f_equal. lia.
      * rewrite (Hpos j o' Hj). f_equal. lia.
    + intros fp Hfp. rewrite fmap_cons in Hfp.
      apply not_elem_of_cons in Hfp as [Hne Hfp].
      rewrite Hkeep by done. apply lookup_insert_ne. done.
Qed.

Lemma encode_subsegs_all_known (l : list Segment) (st : EncState) :
  Forall (fun p => p <> SegNil /\ is_Some (e_segidx st !! Fingerprint p)) l ->
  encode_subsegs Fingerprint st l = Some st.
Proof.
  induction 1 as [|p l [Hp Hk] _ IH]; [done|].
  simpl. rewrite encode_subseg_known by done. done.
Qed.

(** X20: re-announcing a cached segment. When the old segments have
    pairwise different fingerprints, the only new segment is the old
    segment at position [i], and all its subsegments are old segments
    too, [EncodeSegments] emits a single record: the accepted
    single-child Composition whose index is [i]; [numsegs] is
    [len(oldsegs) + 1] and the one sent segment is the wrapper. *)
Theorem EncodeSegments_reannounce (oldsegs : list Segment) (i : nat) (s : Segment)
    (src dst : Z) :
  Forall (fun o => o <> SegNil) oldsegs ->
  NoDup (Fingerprint <$> oldsegs) ->
  oldsegs !! i = Some s ->
  Forall (fun p => p <> SegNil /\ Fingerprint p ∈ Fingerprint <$> oldsegs)
         (RecursiveSubsegments s) ->
  EncodeSegments Fingerprint [s] oldsegs src dst
  = Some (wire_header (Z.of_nat (S (length oldsegs)) mod 2 ^ 16) src dst
          ++ wire_record (wire_flags true SegTypeComposition) 1
               (be_split 2 (Z.of_nat i mod 2 ^ 16)),
          [FromSegments [s]]).
Proof.
  intros Hnn Hnd Hi Hsub.
  destruct (index_oldsegs_positions oldsegs ∅ 0 Hnn Hnd) as (m & Hm & Hpos & _).
  assert (Hs : s <> SegNil).
  { rewrite Forall_forall in Hnn. apply Hnn. eapply list_elem_of_lookup_2. done. }
  unfold EncodeSegments. rewrite encode_header_spec. cbn [mbind option_bind].
  rewrite Hm. cbn [mbind option_bind encode_newsegs].
  erewrite (encode_newseg_known Fingerprint oldsegs _ _ s s i); cycle 1.
  - apply encode_subsegs_all_known. eapply Forall_impl; [exact Hsub|].
    intros p [Hp Hin]. split; [done|]. simpl.
    apply list_elem_of_fmap in Hin as (o & -> & Ho).
    apply list_elem_of_lookup in Ho as [j Hj]. rewrite (Hpos j o Hj). eauto.
  - done.
  - simpl. apply (Hpos i s Hi).
  - done.
  - done.
  - cbn [mbind option_bind e_allbytes e_segidx e_currentIdx e_sentsegs].
    rewrite put_numsegs. cbn [mbind option_bind].
    cbn [FromSegments wire_segment flat_map length].
    unfold wire_index, map_get. rewrite (Hpos i s Hi), app_nil_r. done.
Qed.

End Reannounce.

Lemma EncodeSegments_reannounce_witness :
  EncodeSegments FingerprintModel [scenario_C 10 20]
    [scenario_L1 10; scenario_L2 20; scenario_C 10 20] 7 9
  = Some (wire_header (Z.of_nat 4 mod 2 ^ 16) 7 9
          ++ wire_record (wire_flags true SegTypeComposition) 1
               (be_split 2 (Z.of_nat 2 mod 2 ^ 16)),
          [FromSegments [scenario_C 10 20]]).
Proof.
  apply (EncodeSegments_reannounce FingerprintModel
           [scenario_L1 10; scenario_L2 20; scenario_C 10 20] 2 (scenario_C 10 20)).
  - repeat constructor; discriminate.
  - apply (bool_decide_unpack _). vm_compute. reflexivity.
  - reflexivity.
  - repeat constructor; try discriminate;
      apply (bool_decide_unpack _); vm_compute; reflexivity.
Defined.

(** ** [DecodeSegments]: where the children come from *)

Lemma decode_subsegs_sources (bytes : list byte) (oldsegs news : list Segment) (n : nat) :
  forall (j : nat) (segs : list Segment),
    decode_subsegs bytes oldsegs news n j = Done segs ->
    Forall (fun c => c ∈ oldsegs \/ c ∈ news) segs.
Proof.
  induction n as [|n IH]; intros j segs H; simpl in H.
  - injection H as <-. constructor.
  - apply bind_Done in H as (c & Hc & H).
    apply bind_Done in H as (rest & Hrest & [= <-]).
    constructor; [|eapply IH; exact Hrest].
    unfold decode_subseg in Hc.
    apply bind_Done in Hc as (b & _ & Hc).
    apply bind_Done in Hc as (id & _ & Hc).
    repeat case_decide; [| |done];
      apply lift_Done, list_elem_of_lookup_2 in Hc; eauto.
Qed.

(** What a decoded record stores at its slot. *)
Lemma decode_record_stores (oldsegs : list Segment) (st st' : DecState) (i : nat) :
  decode_record oldsegs st i = Done st' ->
  exists seg,
    (i < length (d_newsegs st))%nat /\
    d_newsegs st' = <[i := seg]> (d_newsegs st) /\
    seg <> SegNil /\
    Forall (fun c => c ∈ oldsegs \/ c ∈ d_newsegs st) (children seg).
Proof.
  unfold decode_record. intros H.
  apply bind_Done in H as (flags & Hflags%lift_Done & H).
  apply bind_Done in H as (b1 & Hb1%lift_Done & H).
  apply bind_Done in H as (b2 & Hb2%lift_Done & H).
  apply bind_Done in H as (optlen & Hopt%lift_Done & H).
  apply bind_Done in H as (st1 & Hst1 & H).
  rewrite segtype_literal_test, segtype_composition_test in Hst1.
  assert (d_newsegs st' = d_newsegs st1) as ->.
  { destruct (Z.eqb _ _); [|injection H as <-; done].
    apply bind_Done in H as (seg' & _ & [= <-]). done. }
  clear H. destruct (Z.testbit (byte.unsigned flags) 0); simpl in Hst1.
  - apply bind_Done in Hst1 as (subsegs & Hsub & Hst1).
    apply bind_Done in Hst1 as (news & [Hi ->]%lift_Done%store_at_Some & Hst1).
    apply bind_Done in Hst1 as (rest & _ & [= <-]).
    exists (FromSegments subsegs). repeat split; try done.
    simpl. eapply decode_subsegs_sources. exact Hsub.
  - apply bind_Done in Hst1 as (b4 & _ & Hst1).
    apply bind_Done in Hst1 as (ifs & _ & Hst1).
    apply bind_Done in Hst1 as (news & [Hi ->]%lift_Done%store_at_Some & Hst1).
    apply bind_Done in Hst1 as (rest & _ & [= <-]).
    exists (FromInterfaces ifs). repeat split; try done; constructor.
Qed.

Lemma decode_records_sources (oldsegs : list Segment) (n : nat) :
  forall (st : DecState) (i : nat) (st' : DecState),
    decode_records oldsegs st n i = Done st' ->
    (forall j, (i <= j)%nat -> (j < length (d_newsegs st))%nat ->
               d_newsegs st !! j = Some SegNil) ->
    forall k s, (i <= k < i + n)%nat -> d_newsegs st' !! k = Some s ->
      s <> SegNil /\
      Forall (child_source oldsegs (d_newsegs st') k) (children s).
Proof.
  induction n as [|n IH]; intros st i st' H Hnil k s Hk Hs; [lia|].
  simpl in H. apply bind_Done in H as (st1 & Hrec & Hloop).
  pose proof (decode_records_Done _ _ _ _ _ Hloop) as (Hlen' & Htake & _).
  apply decode_record_stores in Hrec as (seg & Hi & Hnew & Hseg & Hsrc).
  destruct (decide (k = i)) as [->|Hne].
  - assert (s = seg) as ->.
    { rewrite <- (lookup_take_lt _ (S i)) in Hs by lia.
      rewrite Htake, lookup_take_lt, Hnew, list_lookup_insert_eq in Hs by lia.
      congruence. }
    split; [done|]. eapply Forall_impl; [exact Hsrc|].
    intros c [Hold|Hin]; [right; left; done|].
    apply list_elem_of_lookup in Hin as [j Hj].
    destruct (decide (j < i)%nat) as [Hlt|Hge].
    + right. right. exists j. split; [done|].
      rewrite <- (lookup_take_lt _ (S i)) by lia.
      rewrite Htake, lookup_take_lt, Hnew, list_lookup_insert_ne by lia. done.
    + left. pose proof (lookup_lt_Some _ _ _ Hj).
      rewrite Hnil in Hj by lia. congruence.
  - eapply (IH st1 (S i) st' Hloop); [|lia|done].
    intros j Hj Hlt. rewrite Hnew, length_insert in Hlt.
    rewrite Hnew, list_lookup_insert_ne by lia. apply Hnil; lia.
Qed.

(** X6: in a successful decode every new segment is a Literal or a
    Composition (no slot stays [nil]), and every child of a new
    Composition is an old segment, a new segment of an earlier record,
    or [nil]: an index that points at its own or a later slot never
    resolves to a segment. *)
Theorem DecodeSegments_children_sources (bytes : list byte)
    (oldsegs : list Segment) (r : Decoded) :
  DecodeSegments bytes oldsegs = Some r ->
  err r = None ->
  forall k s, newsegs r !! k = Some s ->
    s <> SegNil /\ Forall (child_source oldsegs (newsegs r) k) (children s).
Proof.
  unfold DecodeSegments. intros H Herr k s Hs.
  destruct (bytes !! 1%nat) as [b1|]; [simpl in H|done].
  destruct (slice_from bytes 2 ≫= Uint16) as [n|]; [simpl in H|done].
  destruct (slice_from bytes 4 ≫= Uint64) as [src|]; [simpl in H|done].
  destruct (slice_from bytes 12 ≫= Uint64) as [dst|]; [simpl in H|done].
  destruct (slice_from bytes (Z.to_nat (byte.unsigned b1))) as [rest|];
    [simpl in H|done].
  destruct (decode_records _ _ _ _) as [st| |] eqn:Hloop; [|by simplify_eq..].
  apply (inj Some) in H. subst r. simpl in *.
  pose proof (decode_records_Done _ _ _ _ _ Hloop) as (Hlen & _).
  simpl in Hlen. rewrite length_replicate in Hlen.
  pose proof (lookup_lt_Some _ _ _ Hs) as Hk.
  eapply (decode_records_sources _ _ _ _ _ Hloop); [|split; [lia|]|done].
  - simpl. intros j _ Hj. rewrite length_replicate in Hj.
    apply lookup_replicate. done.
  - simpl. lia.
Qed.

Lemma DecodeSegments_children_sources_witness :
  Composition [SegNil] <> SegNil /\
  Forall (child_source [] [Composition [SegNil]; Literal []] 0)
         (children (Composition [SegNil])).
Proof.
  apply (DecodeSegments_children_sources forward_reference_buffer []
           (mkDecoded [Composition [SegNil]; Literal []] [] 0 0 None)).
  - vm_compute. reflexivity.
  - reflexivity.
  - reflexivity.
Defined.

(** ** [DecodeSegments]: the error return *)

Lemma bind_Failed {A B : Type} (m : outcome A) (f : A -> outcome B) (e : string) :
  m ≫= f = Failed e -> m = Failed e \/ exists a, m = Done a /\ f a = Failed e.
Proof. destruct m; simpl; [eauto|intros [= ->]; eauto|done]. Qed.

Lemma lift_not_Failed {A : Type} (o : option A) (e : string) : lift o <> Failed e.
Proof. destruct o; done. Qed.

Lemma bind_lift_Failed {A B : Type} (o : option A) (f : A -> outcome B) (e : string) :
  lift o ≫= f = Failed e -> exists a, o = Some a /\ f a = Failed e.
Proof.
  intros [H|(a & H & Hf)]%bind_Failed; [destruct (lift_not_Failed _ _ H)|].
  apply lift_Done in H. eauto.
Qed.

Lemma decode_subsegs_Failed (bytes : list byte) (oldsegs news : list Segment) (n : nat) :
  forall (j : nat) (e : string),
    decode_subsegs bytes oldsegs news n j = Failed e ->
    e = errSubsegmentId /\
    exists off id,
      slice_from bytes off ≫= Uint16 = Some id /\
      (length oldsegs + length news <= Z.to_nat id)%nat.
Proof.
  induction n as [|n IH]; intros j e H; simpl in H; [done|].
  apply bind_Failed in H as [H|(c & _ & H)].
  - unfold decode_subseg in H.
    apply bind_lift_Failed in H as (b & Hb & H).
    apply bind_lift_Failed in H as (id & Hid & H).
    repeat case_decide; try (destruct (lift_not_Failed _ _ H)).
    injection H as <-. split; [done|].
    exists (4 + j * 2)%nat, id. rewrite Hb. simpl. split; [done|lia].
  - apply bind_Failed in H as [H|(rest & _ & H)]; [eauto|done].
Qed.

Lemma decode_record_Failed (oldsegs : list Segment) (st : DecState) (i : nat)
    (e : string) :
  decode_record oldsegs st i = Failed e ->
  e = errSubsegmentId /\
  exists off id,
    slice_from (d_bytes st) off ≫= Uint16 = Some id /\
    (length oldsegs + length (d_newsegs st) <= Z.to_nat id)%nat.
Proof.
  unfold decode_record. intros H.
  apply bind_lift_Failed in H as (flags & _ & H).
  apply bind_lift_Failed in H as (b1 & _ & H).
  apply bind_lift_Failed in H as (b2 & _ & H).
  apply bind_lift_Failed in H as (optlen & _ & H).
  apply bind_Failed in H as [H|(st1 & _ & H)].
  - destruct (Z.eqb _ SegTypeLiteral).
    + apply bind_lift_Failed in H as (b4 & _ & H).
      apply bind_lift_Failed in H as (ifs & _ & H).
      apply bind_lift_Failed in H as (news & _ & H).
      apply bind_lift_Failed in H as (rest & _ & H). done.
    + destruct (Z.eqb _ SegTypeComposition); [|done].
      apply bind_Failed in H as [H|(subsegs & _ & H)].
      * eapply decode_subsegs_Failed. exact H.
      * apply bind_lift_Failed in H as (news & _ & H).
        apply bind_lift_Failed in H as (rest & _ & H). done.
  - destruct (Z.eqb _ _); [|done].
    apply bind_lift_Failed in H as (seg & _ & H). done.
Qed.

Lemma Uint16_at_drop (b : list byte) (size off : nat) (id : Z) :
  (size <= length b)%nat ->
  slice_from (drop size b) off ≫= Uint16 = Some id ->
  slice_from b (size + off) ≫= Uint16 = Some id.
Proof.
  intros Hsize H.
  destruct (slice_from (drop size b) off) as [w|] eqn:Hw; [simpl in H|done].
  apply slice_from_Some in Hw as [Hoff ->]. rewrite length_drop in Hoff.
  rewrite drop_drop in H.
  assert (slice_from b (size + off) = Some (drop (size + off) b)) as ->
    by (apply slice_from_Some; split; [lia|done]).
  done.
Qed.

Lemma decode_records_Failed (oldsegs : list Segment) (n : nat) :
  forall (st : DecState) (i : nat) (e : string),
    decode_records oldsegs st n i = Failed e ->
    e = errSubsegmentId /\
    exists off id,
      slice_from (d_bytes st) off ≫= Uint16 = Some id /\
      (length oldsegs + length (d_newsegs st) <= Z.to_nat id)%nat.
Proof.
  induction n as [|n IH]; intros st i e H; simpl in H; [done|].
  apply bind_Failed in H as [H|(st1 & Hrec & H)].
  - eapply decode_record_Failed. exact H.
  - apply IH in H as (-> & off & id & Hoff & Hid). split; [done|].
    apply decode_record_Done in Hrec
      as (flags & size & seg & _ & _ & Hrest & _ & Hnew & _).
    apply slice_from_Some in Hrest as [Hsize Hrest].
    rewrite Hrest in Hoff. rewrite Hnew, length_insert in Hid.
    exists (size + off)%nat, id. split; [|done].
    apply Uint16_at_drop; done.
Qed.

(** X5: the error return of [DecodeSegments]. Whenever it returns an
    error, the error is the invalid-subsegment-id error, both segment
    lists are empty, and the buffer holds a 2-byte index that is at
    least [len(oldsegs)] plus the declared number of records. *)
Theorem DecodeSegments_error (bytes : list byte) (oldsegs : list Segment)
    (r : Decoded) :
  DecodeSegments bytes oldsegs = Some r ->
  err r <> None ->
  err r = Some errSubsegmentId /\
  newsegs r = [] /\
  accsegs r = [] /\
  exists numsegs off id,
    slice_from bytes 2 ≫= Uint16 = Some numsegs /\
    slice_from bytes off ≫= Uint16 = Some id /\
    (length oldsegs + Z.to_nat numsegs <= Z.to_nat id)%nat.
Proof.
  unfold DecodeSegments. intros H Herr.
  destruct (bytes !! 1%nat) as [b1|]; [simpl in H|done].
  destruct (slice_from bytes 2 ≫= Uint16) as [n|]; [simpl in H|done].
  destruct (slice_from bytes 4 ≫= Uint64) as [src|]; [simpl in H|done].
  destruct (slice_from bytes 12 ≫= Uint64) as [dst|]; [simpl in H|done].
  destruct (slice_from bytes (Z.to_nat (byte.unsigned b1))) as [rest|] eqn:Hrest;
    [simpl in H|done].
  destruct (decode_records _ _ _ _) as [st|e|] eqn:Hloop; [| |done].
  - apply (inj Some) in H. subst r. done.
  - apply (inj Some) in H. subst r. simpl.
    apply decode_records_Failed in Hloop as (-> & off & id & Hoff & Hid).
    simpl in Hoff, Hid. rewrite length_replicate in Hid.
    apply slice_from_Some in Hrest as [Hh ->].
    repeat split; try done.
    exists n, (Z.to_nat (byte.unsigned b1) + off)%nat, id.
    split; [done|]. split; [|done]. apply Uint16_at_drop; done.
Qed.

Lemma DecodeSegments_error_witness :
  Some errSubsegmentId = Some errSubsegmentId /\
  @nil Segment = [] /\
  @nil Segment = [] /\
  exists numsegs off id,
    slice_from out_of_range_buffer 2 ≫= Uint16 = Some numsegs /\
    slice_from out_of_range_buffer off ≫= Uint16 = Some id /\
    (length (@nil Segment) + Z.to_nat numsegs <= Z.to_nat id)%nat.
Proof.
  apply (DecodeSegments_error out_of_range_buffer []
           (mkDecoded [] [] 0 0 (Some errSubsegmentId))).
  - vm_compute. reflexivity.
  - discriminate.
Defined.

(** ** [DecodeSegments]: reserved bytes are skipped *)

Lemma DecodeSegments_padded_header (b0 : byte) (h : nat) (n src dst : Z)
    (padding payload : list byte) (oldsegs : list Segment) :
  (20 <= h)%nat -> Z.of_nat h < 256 ->
  length padding = (h - 20)%nat ->
  DecodeSegments (padded_header b0 h n src dst padding ++ payload) oldsegs
  = match decode_records oldsegs
            (mkDecState payload (replicate (Z.to_nat (n mod 2 ^ 16)) SegNil) [])
            (Z.to_nat (n mod 2 ^ 16)) 0 with
    | Done st => Some (mkDecoded (d_newsegs st) (d_accsegs st)
                                 (src mod 2 ^ 64) (dst mod 2 ^ 64) None)
    | Failed e => Some (mkDecoded [] [] (src mod 2 ^ 64) (dst mod 2 ^ 64) (Some e))
    | Panicked => None
    end.
Proof.
  intros Hh Hh' Hpad. unfold DecodeSegments, padded_header.
  rewrite <- !app_assoc.
  change (([b0; byte.of_Z (Z.of_nat h)] ++ _) !! 1%nat)
    with (Some (byte.of_Z (Z.of_nat h))).
  cbn [mbind option_bind]. rewrite seglen_byte by done.
  rewrite (slice_from_app_at [_; _] _ 2) by done. cbn [mbind option_bind].
  rewrite Uint16_be_split. cbn [mbind option_bind].
  rewrite (app_assoc [_; _] (be_split 2 n)).
  rewrite (slice_from_app_at _ _ 4) by (rewrite length_app, length_be_split; done).
  cbn [mbind option_bind]. rewrite Uint64_be_split. cbn [mbind option_bind].
  rewrite (app_assoc (_ ++ _) (be_split 8 src)).
  rewrite (slice_from_app_at _ _ 12)
    by (rewrite !length_app, !length_be_split; done).
  cbn [mbind option_bind]. rewrite Uint64_be_split. cbn [mbind option_bind].
  rewrite (app_assoc (_ ++ _) (be_split 8 dst)), (app_assoc (_ ++ _) padding).
  rewrite (slice_from_app_at _ _ h)
    by (rewrite !length_app, !length_be_split, Hpad; simpl; lia).
  cbn [mbind option_bind]. done.
Qed.

(** X7: the decoder honours the header length and ignores the reserved
    bytes: with any byte 0 and any padding between byte 20 and the
    declared header length (20 to 255), it returns what it returns for
    the plain 20-byte header with the same numsegs, addresses and
    records. *)
Theorem DecodeSegments_skips_header_padding (b0 : byte) (h : nat) (n src dst : Z)
    (padding payload : list byte) (oldsegs : list Segment) :
  (20 <= h)%nat -> Z.of_nat h < 256 ->
  length padding = (h - 20)%nat ->
  DecodeSegments (padded_header b0 h n src dst padding ++ payload) oldsegs
  = DecodeSegments (wire_header n src dst ++ payload) oldsegs.
Proof.
  intros Hh Hh' Hpad.
  rewrite DecodeSegments_padded_header by done.
  change (wire_header n src dst) with (padded_header Byte.x00 20 n src dst []).
  rewrite DecodeSegments_padded_header by (done || lia). done.
Qed.

Lemma DecodeSegments_skips_header_padding_witness :
  DecodeSegments
    (padded_header Byte.xff 22 3 7 9 [Byte.xaa; Byte.xbb] ++ scenario_records 10 20) []
  = DecodeSegments (wire_header 3 7 9 ++ scenario_records 10 20) [].
Proof.
  apply DecodeSegments_skips_header_padding; simpl; lia.
Defined.

(** *** Options behind a record *)

Lemma DecodeInterfaces_from_prefix (p x y : list byte) (n : nat) :
  forall i : nat,
    ((i + n) * 16 <= length p)%nat ->
    DecodeInterfaces_from (p ++ x) n i = DecodeInterfaces_from (p ++ y) n i.
Proof.
  induction n as [|n IH]; intros i Hlen; [done|].
  simpl. rewrite IH by lia. f_equal.
  unfold decode_interface, slice_from, Uint64.
  rewrite !length_app. repeat (case_decide; [|lia]). simpl.
  rewrite !length_drop, !length_app. repeat (case_decide; [|lia]). simpl.
  rewrite !drop_app_le, !take_app_le by (rewrite ?length_drop; lia). done.
Qed.

Lemma slice_from_mid (h p x : list byte) (k : nat) :
  length h = 4%nat -> (k <= length p)%nat ->
  slice_from (h ++ p ++ x) (4 + k) = Some (drop k p ++ x).
Proof.
  intros Hh Hk. apply slice_from_Some. rewrite !length_app. split; [lia|].
  rewrite drop_app_ge, Hh by lia.
  replace (4 + k - 4)%nat with k by lia. rewrite drop_app_le by done. done.
Qed.

Lemma Uint16_app_l (w x : list byte) :
  (2 <= length w)%nat -> Uint16 (w ++ x) = Uint16 w.
Proof.
  intros Hw. unfold Uint16. rewrite length_app.
  repeat (case_decide; [|lia]). rewrite take_app_le by done. done.
Qed.

(** The subsegment indices are read from the payload alone. *)
Lemma decode_subsegs_window (h h' p x y : list byte) (oldsegs news : list Segment)
    (n : nat) :
  forall j : nat,
    length h = 4%nat -> length h' = 4%nat ->
    ((j + n) * 2 <= length p)%nat ->
    decode_subsegs (h ++ p ++ x) oldsegs news n j
    = decode_subsegs (h' ++ p ++ y) oldsegs news n j.
Proof.
  induction n as [|n IH]; intros j Hh Hh' Hlen; [done|].
  simpl. rewrite (IH (S j)) by (done || lia). f_equal.
  unfold decode_subseg.
  rewrite !slice_from_mid by (done || lia). cbn [mbind outcome_bind lift].
  rewrite !Uint16_app_l by (rewrite length_drop; lia). done.
Qed.

Lemma record_with_options_fields (flags b1 : byte) (optlen : Z)
    (payload options rest : list byte) :
  let B := record_with_options flags b1 optlen payload options ++ rest in
  B = ([flags; b1] ++ be_split 2 optlen) ++ payload ++ (options ++ rest) /\
  B !! 0%nat = Some flags /\
  B !! 1%nat = Some b1 /\
  slice_from B 2 = Some (be_split 2 optlen ++ payload ++ options ++ rest) /\
  slice_from B (4 + length payload + length options) = Some rest.
Proof.
  unfold record_with_options. cbn zeta. rewrite <- !app_assoc.
  split; [done|]. split; [done|]. split; [done|]. split.
  - apply (slice_from_app_at [_; _]). done.
  - rewrite (app_assoc [_; _]), (app_assoc (_ ++ _) payload),
      (app_assoc (_ ++ _) options).
    apply slice_from_app_at. rewrite !length_app, length_be_split. simpl. lia.
Qed.

(** X8: the decoder skips the options of a record: with [optlen] bytes
    of options behind the payload (16 bytes per entry of a Literal, 2
    per entry of a Composition), the record loop does what it does for
    the same record with [optlen = 0] and no options. *)
Theorem decode_record_skips_options (oldsegs news accs : list Segment) (i : nat)
    (flags b1 : byte) (optlen : Z) (payload options rest : list byte) :
  0 <= optlen < 2 ^ 16 ->
  length payload
  = (Z.to_nat (byte.unsigned b1)
     * (if Z.testbit (byte.unsigned flags) 0 then 2 else 16))%nat ->
  length options = Z.to_nat optlen ->
  decode_record oldsegs
    (mkDecState (record_with_options flags b1 optlen payload options ++ rest)
                news accs) i
  = decode_record oldsegs
      (mkDecState (record_with_options flags b1 0 payload [] ++ rest) news accs) i.
Proof.
  intros Hopt Hpay Hoptions.
  destruct (record_with_options_fields flags b1 optlen payload options rest)
    as (HB & H0 & H1 & H2 & Hend).
  destruct (record_with_options_fields flags b1 0 payload [] rest)
    as (HB' & H0' & H1' & H2' & Hend').
  cbn zeta in *.
  set (B := record_with_options flags b1 optlen payload options ++ rest) in *.
  set (B' := record_with_options flags b1 0 payload [] ++ rest) in *.
  assert (Hh : forall v, length ([flags; b1] ++ be_split 2 v) = 4%nat)
    by (intros v; rewrite length_app, length_be_split; done).
  unfold decode_record. cbn [d_bytes d_newsegs d_accsegs].
  rewrite H0, H1, H2, H0', H1', H2'. cbn [mbind outcome_bind lift].
  rewrite !Uint16_be_split. cbn [mbind outcome_bind lift].
  rewrite Z.mod_small by done. change (Z.to_nat (0 mod 2 ^ 16)) with 0%nat.
  rewrite segtype_literal_test, segtype_composition_test.
  set (n := Z.to_nat (byte.unsigned b1)) in *.
  f_equal. destruct (Z.testbit (byte.unsigned flags) 0); cbn [negb].
  - rewrite <- Hoptions.
    replace (4 + n * 2 + length options)%nat
      with (4 + length payload + length options)%nat by lia.
    replace (4 + n * 2 + 0)%nat
      with (4 + length payload + length (@nil byte))%nat by (simpl; lia).
    rewrite Hend, Hend'. rewrite HB, HB'.
    rewrite (decode_subsegs_window _ ([flags; b1] ++ be_split 2 0) _ _ ([] ++ rest))
      by (done || lia).
    done.
  - rewrite <- Hoptions.
    replace (4 + n * 16 + length options)%nat
      with (4 + length payload + length options)%nat by lia.
    replace (4 + n * 16 + 0)%nat
      with (4 + length payload + length (@nil byte))%nat by (simpl; lia).
    rewrite Hend, Hend'. rewrite HB, HB'.
    rewrite !slice_from_app_at by done.
    cbn [mbind outcome_bind lift]. unfold DecodeInterfaces.
    rewrite (DecodeInterfaces_from_prefix payload (options ++ rest) ([] ++ rest))
      by lia.
    done.
Qed.

Lemma decode_record_skips_options_witness :
  decode_record []
    (mkDecState (record_with_options Byte.x02 Byte.x00 3 []
                   [Byte.x01; Byte.x02; Byte.x03] ++ [Byte.x07]) [SegNil] []) 0
  = decode_record []
      (mkDecState (record_with_options Byte.x02 Byte.x00 0 [] [] ++ [Byte.x07])
                  [SegNil] []) 0.
Proof.
  apply decode_record_skips_options; [lia|reflexivity|reflexivity].
Defined.

(** ** [DecodeSegments]: what a successful decode returns *)

Lemma length_accepted_of (segs : list Segment) :
  forall flags : list byte, (length (accepted_of segs flags) <= length segs)%nat.
Proof.
  induction segs as [|s segs IH]; intros [|f flags]; simpl; try lia.
  destruct (accepted_bit f); simpl; specialize (IH flags); lia.
Qed.

(** X4: a successful decode returns exactly as many new segments as the
    numsegs field declares, at most as many accepted segments, and the
    two addresses read big-endian from bytes 4..12 and 12..20. *)
Theorem DecodeSegments_success_header (bytes : list byte) (oldsegs : list Segment)
    (r : Decoded) :
  DecodeSegments bytes oldsegs = Some r ->
  err r = None ->
  exists numsegs,
    slice_from bytes 2 ≫= Uint16 = Some numsegs /\
    length (newsegs r) = Z.to_nat numsegs /\
    (length (accsegs r) <= Z.to_nat numsegs)%nat /\
    slice_from bytes 4 ≫= Uint64 = Some (srcIA r) /\
    slice_from bytes 12 ≫= Uint64 = Some (dstIA r).
Proof.
  unfold DecodeSegments. intros H Herr.
  destruct (bytes !! 1%nat) as [b1|]; [simpl in H|done].
  destruct (slice_from bytes 2 ≫= Uint16) as [n|]; [simpl in H|done].
  destruct (slice_from bytes 4 ≫= Uint64) as [src|]; [simpl in H|done].
  destruct (slice_from bytes 12 ≫= Uint64) as [dst|]; [simpl in H|done].
  destruct (slice_from bytes (Z.to_nat (byte.unsigned b1))) as [rest|];
    [simpl in H|done].
  destruct (decode_records _ _ _ _) as [st| |] eqn:Hloop; [|by simplify_eq..].
  apply (inj Some) in H. subst r. simpl.
  apply decode_records_Done in Hloop as (Hlen & _ & flags & _ & _ & Hacc).
  simpl in Hlen, Hacc. rewrite length_replicate in Hlen.
  exists n. repeat split; try done.
  rewrite Hacc, drop_0, <- Hlen. apply length_accepted_of.
Qed.

Lemma DecodeSegments_success_header_witness :
  exists numsegs,
    slice_from accepted_example_buffer 2 ≫= Uint16 = Some numsegs /\
    length [Literal [mkPathInterface 1 5]; Composition [Literal [mkPathInterface 1 5]]]
    = Z.to_nat numsegs /\
    (length [Composition [Literal [mkPathInterface 1 5]]] <= Z.to_nat numsegs)%nat /\
    slice_from accepted_example_buffer 4 ≫= Uint64 = Some 0 /\
    slice_from accepted_example_buffer 12 ≫= Uint64 = Some 0.
Proof.
  apply (DecodeSegments_success_header accepted_example_buffer []
           (mkDecoded [Literal [mkPathInterface 1 5];
                       Composition [Literal [mkPathInterface 1 5]]]
                      [Composition [Literal [mkPathInterface 1 5]]] 0 0 None)).
  - vm_compute. reflexivity.
  - reflexivity.
Defined.

Lemma DecodeSegments_success_bounds_witness :
  exists b1 n,
    accepted_example_buffer !! 1%nat = Some b1 /\
    slice_from accepted_example_buffer 2 ≫= Uint16 = Some n /\
    (20 <= length accepted_example_buffer)%nat /\
    (Z.to_nat (byte.unsigned b1) + 4 * Z.to_nat n
     <= length accepted_example_buffer)%nat.
Proof.
  apply (DecodeSegments_success_bounds accepted_example_buffer []
           (mkDecoded [Literal [mkPathInterface 1 5];
                       Composition [Literal [mkPathInterface 1 5]]]
                      [Composition [Literal [mkPathInterface 1 5]]] 0 0 None)).
  - vm_compute. reflexivity.
  - reflexivity.
Defined.

(** ** The round trip with old segments *)

(** X2: with old segments (at least one, fewer than 65536), whatever the
    new segments are, [DecodeSegments] never returns the sent segments
    of the [EncodeSegments] call for its buffer: the header counts the
    old segments as records to read. *)
Theorem old_segments_never_round_trip (Fingerprint : Segment -> string)
    (news olds : list Segment) (src dst : Z) (bytes : list byte)
    (sent : list Segment) (r : Decoded) :
  (0 < length olds)%nat ->
  Z.of_nat (length olds) < 65536 ->
  EncodeSegments Fingerprint news olds src dst = Some (bytes, sent) ->
  newsegs r = sent ->
  err r = None ->
  DecodeSegments bytes olds <> Some r.
Proof.
  intros Hpos Hlt Henc Hr Herr Hdec.
  eapply roundtrip_never_with_old_segments; eauto.
Qed.

Lemma old_segments_never_round_trip_witness :
  DecodeSegments (wire_header 2 7 9 ++ literal1_record_accepted 2 20) [scenario_L1 10]
  <> Some (mkDecoded [scenario_L2 20] [scenario_L2 20] 7 9 None).
Proof.
  apply (old_segments_never_round_trip FingerprintModel
           [scenario_L2 20] [scenario_L1 10] 7 9 _ [scenario_L2 20]).
  - simpl. lia.
  - simpl. lia.
  - vm_compute. reflexivity.
  - reflexivity.
  - reflexivity.
Defined.
